(** * Column imputer (factory and strategy variants): model and properties

    The two Python modules [imputer_factory.py] and [imputer_strategy.py]
    define the same three strategy classes ([Mean], [Median], [Mode]) and
    an [Imputer] wrapper; they differ only in how the strategy object is
    built.  This development embeds both.

    Numeric model.  A float64 cell is the not-a-number marker, one of the two
    infinities, or a finite value, held as a canonical rational.  Every
    arithmetic result is rounded to binary64 (to nearest, ties to even, with
    gradual underflow) and overflows to an infinity, as IEEE 754 prescribes.
    The two zeros are not told apart.  The cells of a column are added in
    row order; numpy may group the additions of a long column differently,
    which shows only when a partial sum is inexact, so the theorems that give
    the value of a mean are stated for sums that are exact. *)

From Stdlib Require Import QArith Qcanon ZArith Lia DecimalString.
From Stdlib Require Import Sorting.Permutation Sorting.Sorted.
From stdpp Require Import base decidable option list gmap strings.

Local Open Scope Z_scope.

(** ** Cells *)

Inductive cell : Type :=
| NaN
| NegInf
| Fin (q : Qc)
| PosInf.

Definition Qc_eqb (a b : Qc) : bool := Qeq_bool a b.

Definition cell_eqb (x y : cell) : bool :=
  match x, y with
  | NaN, NaN | NegInf, NegInf | PosInf, PosInf => true
  | Fin a, Fin b => Qc_eqb a b
  | _, _ => false
  end.

#[global] Instance cell_eq_dec : EqDecision cell.
Proof.
  intros x y. destruct (cell_eqb x y) eqn:E.
  - left. destruct x, y; try discriminate E; try reflexivity.
    f_equal. apply Qc_is_canon. apply Qeq_bool_iff. exact E.
  - right. intros ->. destruct y; try discriminate E.
    simpl in E. unfold Qc_eqb in E.
    assert (H : Qeq_bool q q = true) by (apply Qeq_bool_iff; reflexivity).
    congruence.
Defined.

(** [np.isnan], [np.isposinf], [np.isneginf]. *)
Definition isnan (x : cell) : bool :=
  match x with NaN => true | _ => false end.
Definition isposinf (x : cell) : bool :=
  match x with PosInf => true | _ => false end.
Definition isneginf (x : cell) : bool :=
  match x with NegInf => true | _ => false end.
Definition isfinite (x : cell) : bool :=
  match x with Fin _ => true | _ => false end.

(** ** Rounding to binary64 *)

(** [N / D] rounded to the nearest integer, a tie going to the even one
    ([0 <= N], [0 < D]). *)
Definition round_half_even (N D : Z) : Z :=
  let k := N / D in
  let r := N mod D in
  match 2 * r ?= D with
  | Lt => k
  | Gt => k + 1
  | Eq => if Z.even k then k else k + 1
  end.

(** Values are counted in units of [2^-1074], the smallest subnormal:
    [N / D] is such a value.  The search returns the exponent [U] of the
    unit in the last place, the least [U >= 0] with [N / D < 2^(53 + U)],
    together with [W = D * 2^U]; it starts from [U = 0], [W = D]. *)
Fixpoint ulp_search (fuel : nat) (U W N : Z) : Z * Z :=
  match fuel with
  | O => (U, W)
  | S fuel' =>
      if N <? 2 ^ 53 * W then (U, W)
      else ulp_search fuel' (U + 1) (2 * W) N
  end.

(** The binary64 value nearest to the positive rational [n / d]: a
    significand [m] of at most 53 bits times [2^U] units.  A result of
    [2^1024], that is [2^2098] units, or more is infinite; the fuel is
    never exhausted below that. *)
Definition round64_pos (n d : positive) : cell :=
  let N := Zpos n * 2 ^ 1074 in
  let '(U, W) := ulp_search 2100 0 (Zpos d) N in
  let m := round_half_even N W in
  if 2 ^ 2098 <=? m * 2 ^ U then PosInf
  else Fin (Q2Qc (m * 2 ^ U # Z.to_pos (2 ^ 1074))).

Definition cell_opp (x : cell) : cell :=
  match x with
  | NaN => NaN
  | NegInf => PosInf
  | PosInf => NegInf
  | Fin q => Fin (- q)%Qc
  end.

(** The float64 nearest to a rational. *)
Definition round64 (q : Q) : cell :=
  match Qred q with
  | Z0 # _ => Fin 0%Qc
  | Zpos n # d => round64_pos n d
  | Zneg n # d => cell_opp (round64_pos n d)
  end.

(** IEEE addition. *)
Definition fadd (x y : cell) : cell :=
  match x, y with
  | NaN, _ | _, NaN => NaN
  | PosInf, NegInf | NegInf, PosInf => NaN
  | PosInf, _ | _, PosInf => PosInf
  | NegInf, _ | _, NegInf => NegInf
  | Fin a, Fin b => round64 (a + b)%Q
  end.

(** IEEE division of a cell by a non-negative count, as in
    [tot / cnt] with an integer array [cnt] converted to float. *)
Definition fdiv_count (x : cell) (n : nat) : cell :=
  match n with
  | O =>
      match x with
      | NaN => NaN
      | PosInf => PosInf
      | NegInf => NegInf
      | Fin q =>
          match (Qnum q ?= 0)%Z with
          | Eq => NaN
          | Gt => PosInf
          | Lt => NegInf
          end
      end
  | S _ =>
      match x with
      | Fin q => round64 (q / inject_Z (Z.of_nat n))%Q
      | _ => x
      end
  end.

(** IEEE equality on cells: the marker differs from everything,
    itself included. *)
Definition ieee_eqb (x y : cell) : bool :=
  match x, y with
  | NaN, _ | _, NaN => false
  | _, _ => cell_eqb x y
  end.

(** The ordering used by numpy's sorts ([DOUBLE_compare]): the usual order
    on numbers, with the marker after every number and equal to itself. *)
Definition cell_compare (x y : cell) : comparison :=
  match x, y with
  | NaN, NaN => Eq
  | NaN, _ => Gt
  | _, NaN => Lt
  | NegInf, NegInf => Eq
  | NegInf, _ => Lt
  | _, NegInf => Gt
  | PosInf, PosInf => Eq
  | PosInf, _ => Gt
  | _, PosInf => Lt
  | Fin a, Fin b => (a ?= b)%Qc
  end.

Definition cell_leb (x y : cell) : bool :=
  match cell_compare x y with Gt => false | _ => true end.

(** Largest finite float64, [(2^53 - 1) * 2^971]. *)
Definition DBL_MAX : Qc :=
  Q2Qc (inject_Z ((2 ^ 53 - 1) * 2 ^ 971)).

Definition Qz (z : Z) : Qc := Q2Qc (inject_Z z).
Definition F (z : Z) : cell := Fin (Qz z).

(** ** Generic list helpers *)

Section Sorting.
Context {A : Type} (leb : A -> A -> bool).

Fixpoint insert_sorted (x : A) (l : list A) : list A :=
  match l with
  | [] => [x]
  | y :: l' => if leb x y then x :: l else y :: insert_sorted x l'
  end.

(** The result of [ndarray.sort]: the elements in non-decreasing order. *)
Fixpoint np_sort (l : list A) : list A :=
  match l with
  | [] => []
  | x :: l' => insert_sorted x (np_sort l')
  end.
End Sorting.

(** ** Arrays *)

(** One-dimensional float array. *)
Abbreviation ndarray1 := (list cell).

(** Two-dimensional float array of shape [(length rows, shape1)]. *)
Record ndarray : Type := mk_ndarray {
  shape1 : nat;
  rows : list ndarray1
}.

Definition shape0 (a : ndarray) : nat := length (rows a).

Definition well_shaped (a : ndarray) : bool :=
  forallb (fun r => Nat.eqb (length r) (shape1 a)) (rows a).

(** [r[j]] for [j] within the row. *)
Definition getitem (r : ndarray1) (j : nat) : cell := default NaN (r !! j).

(** [a[:, j]] *)
Definition column (a : ndarray) (j : nat) : ndarray1 :=
  map (fun r => getitem r j) (rows a).

(** [a[:, j] = col] *)
Definition set_column (a : ndarray) (j : nat) (col : ndarray1) : ndarray :=
  mk_ndarray (shape1 a) (zip_with (fun r v => <[j := v]> r) (rows a) col).

(** ** The numpy routines the strategies call *)

(** [np.nan_to_num(d, nan=v)]: the marker becomes [v]; with [posinf] and
    [neginf] left at their defaults the infinities become the largest and the
    smallest finite float.  The three masks are taken before any write. *)
Definition nan_to_num1 (v : cell) (x : cell) : cell :=
  if isnan x then v
  else if isposinf x then Fin DBL_MAX
  else if isneginf x then Fin (- DBL_MAX)%Qc
  else x.

Definition nan_to_num (d : ndarray1) (v : cell) : ndarray1 :=
  map (nan_to_num1 v) d.

(** [np.sum] of a one-dimensional array, the cells added one after the
    other. *)
Definition np_sum (l : ndarray1) : cell := fold_left fadd l (Fin 0%Qc).

(** [np.mean] of a one-dimensional array. *)
Definition np_mean (l : ndarray1) : cell := fdiv_count (np_sum l) (length l).

Definition replace_nan (v : cell) (x : cell) : cell :=
  if isnan x then v else x.

Definition count_nonnan (l : ndarray1) : nat :=
  length (filter (fun x => isnan x = false) l).

(** [np.nanmean] along one column: the markers are replaced by zero, the
    total is divided by the number of cells that are not markers. *)
Definition nanmean1d (col : ndarray1) : cell :=
  fdiv_count (np_sum (map (replace_nan (Fin 0%Qc)) col)) (count_nonnan col).

(** [np.nanmean(a, axis=0)] *)
Definition nanmean (a : ndarray) : ndarray1 :=
  map (fun j => nanmean1d (column a j)) (seq 0 (shape1 a)).

Definition remove_nan (col : ndarray1) : ndarray1 :=
  filter (fun x => isnan x = false) col.

(** [np.median] of a one-dimensional array without markers: the mean of
    the middle slice of the sorted array. *)
Definition np_median (l : ndarray1) : cell :=
  let s := np_sort cell_leb l in
  let n := length s in
  let index := (n / 2)%nat in
  if Nat.odd n then np_mean (take 1 (drop index s))
  else np_mean (take 2 (drop (index - 1) s)).

(** The median as [np.ma.median] takes it along an axis of a matrix: the
    sum of the two middle values of the sorted column, halved; for an odd
    count the middle value is taken twice. *)
Definition ma_median (l : ndarray1) : cell :=
  let s := np_sort cell_leb l in
  let n := length s in
  let h := (n / 2)%nat in
  let high := getitem s h in
  let low := if Nat.odd n then high else getitem s (h - 1) in
  fdiv_count (fadd low high) 2.

(** [np.nanmedian] along one column of a matrix: the marker when the column
    holds nothing else; otherwise the median of the other cells, through
    [np.ma.median] for a matrix of fewer than 600 rows and through
    [np.median] column by column for a longer one. *)
Definition nanmedian1d (col : ndarray1) : cell :=
  match remove_nan col with
  | [] => NaN
  | l => if Nat.ltb (length col) 600 then ma_median l else np_median l
  end.

(** [np.nanmedian(a, axis=0)] *)
Definition nanmedian (a : ndarray) : ndarray1 :=
  map (fun j => nanmedian1d (column a j)) (seq 0 (shape1 a)).

(** Lexicographic comparison of two rows, field by field. *)
Fixpoint row_compare (r1 r2 : ndarray1) : comparison :=
  match r1, r2 with
  | [], [] => Eq
  | [], _ => Lt
  | _, [] => Gt
  | x :: r1', y :: r2' =>
      match cell_compare x y with
      | Eq => row_compare r1' r2'
      | c => c
      end
  end.

Definition row_leb (r1 r2 : ndarray1) : bool :=
  match row_compare r1 r2 with Gt => false | _ => true end.

(** [r1 != r2] on rows: true as soon as one field differs. *)
Fixpoint row_ne (r1 r2 : ndarray1) : bool :=
  match r1, r2 with
  | x :: r1', y :: r2' => negb (ieee_eqb x y) || row_ne r1' r2'
  | _, _ => false
  end.

(** Runs of the sorted rows: a new run starts where a row differs from the
    one before it; each run is reported by its first row and its length. *)
Fixpoint unique_runs (first : ndarray1) (prev : ndarray1) (cnt : nat)
    (rest : list ndarray1) : list (ndarray1 * nat) :=
  match rest with
  | [] => [(first, cnt)]
  | r :: rest' =>
      if row_ne r prev then (first, cnt) :: unique_runs r r 1 rest'
      else unique_runs first r (S cnt) rest'
  end.

(** [np.unique(a, axis=0, return_counts=True)] *)
Definition np_unique (a : ndarray) : list ndarray1 * list nat :=
  match np_sort row_leb (rows a) with
  | [] => ([], [])
  | r :: rest =>
      let runs := unique_runs r r 1 rest in
      (map fst runs, map snd runs)
  end.

(** [c.argmax()]: the first position of the largest element; [None]
    stands for the ValueError numpy raises on an empty sequence. *)
Fixpoint argmax_from (best_i : nat) (best : nat) (i : nat) (c : list nat) : nat :=
  match c with
  | [] => best_i
  | x :: c' =>
      if Nat.ltb best x then argmax_from i x (S i) c'
      else argmax_from best_i best (S i) c'
  end.

Definition argmax (c : list nat) : option nat :=
  match c with
  | [] => None
  | x :: c' => Some (argmax_from 0 x 1 c')
  end.

(** ** Interpreter state, exceptions and output *)

(** The Python exceptions the modelled code can raise. *)
Inductive exn : Type :=
| RuntimeError (msg : string)
| AttributeError
| TypeError
| IndexError
| ValueError.

Inductive result (A : Type) : Type :=
| Ok (a : A)
| Raise (e : exn).
Arguments Ok {A} a.
Arguments Raise {A} e.

(** References to array objects. *)
Abbreviation loc := nat.

(** The arrays that live on the Python heap and what has been printed. *)
Record world : Type := mk_world {
  heap : gmap nat ndarray;
  stdout : list string
}.

(** Computations over a state [S] that may raise. *)
Definition M (S A : Type) : Type := S -> result A * S.

Definition ret {S A} (a : A) : M S A := fun s => (Ok a, s).
Definition raise {S A} (e : exn) : M S A := fun s => (Raise e, s).
Definition bind {S A B} (m : M S A) (k : A -> M S B) : M S B :=
  fun s => match m s with
           | (Ok a, s') => k a s'
           | (Raise e, s') => (Raise e, s')
           end.

Declare Scope py_scope.
Delimit Scope py_scope with py.
Notation "x <- m ;; k" := (bind m (fun x => k))
  (at level 100, m at next level, right associativity) : py_scope.
Notation "m ;;; k" := (bind m (fun _ => k))
  (at level 100, right associativity) : py_scope.
Local Open Scope py_scope.

Definition print (line : string) : M world unit :=
  fun w => (Ok tt, mk_world (heap w) (stdout w ++ [line])).

(** Reading an array through a reference.  Every reference the methods
    receive points to an array; the failure branch only makes the function
    total. *)
Definition deref (l : loc) : M world ndarray :=
  fun w => match heap w !! l with
           | Some a => (Ok a, w)
           | None => (Raise AttributeError, w)
           end.

Definition store (l : loc) (a : ndarray) : M world unit :=
  fun w => (Ok tt, mk_world (<[l := a]> (heap w)) (stdout w)).

(** A new array object. *)
Definition alloc (a : ndarray) : M world loc :=
  fun w => let l := fresh (dom (heap w)) in
           (Ok l, mk_world (<[l := a]> (heap w)) (stdout w)).

(** [data.astype(float)] on a float array: a copy in a new object. *)
Definition astype_float (data : loc) : M world loc :=
  a <- deref data ;; alloc a.

(** [str] of an integer, as the f-strings format [self.axis]. *)
Definition string_of_Z (z : Z) : string := NilZero.string_of_int (Z.to_int z).

(** ** The strategy classes (identical in both modules) *)

Inductive strategy_kind : Type := Mean | Median | Mode.

Record ImputerStrategy : Type := mk_strategy {
  kind : strategy_kind;
  axis : Z
}.

Definition not_implemented (method : string) (ax : Z) : string :=
  "`" ++ method ++ "` method for axis=" ++ string_of_Z ax
      ++ " is not implemented.".

Definition Mean_fit (self : ImputerStrategy) (data : loc)
    : M world (option ndarray1) :=
  if axis self =? 0 then
    a <- deref data ;; ret (Some (nanmean a))
  else
    print (not_implemented "fit" (axis self)) ;;; ret None.

Definition Median_fit (self : ImputerStrategy) (data : loc)
    : M world (option ndarray1) :=
  if axis self =? 0 then
    a <- deref data ;; ret (Some (nanmedian a))
  else
    print (not_implemented "fit" (axis self)) ;;; ret None.

(** [u[c.argmax()]]: the first of the sorted distinct rows that has the
    largest count. *)
Definition Mode_fit (self : ImputerStrategy) (data : loc)
    : M world (option ndarray1) :=
  if axis self =? 0 then
    a <- deref data ;;
    let '(u, c) := np_unique a in
    match argmax c with
    | None => raise ValueError
    | Some i =>
        match u !! i with
        | Some r => ret (Some r)
        | None => raise IndexError
        end
    end
  else
    print (not_implemented "fit" (axis self)) ;;; ret None.

(** [fitted_data[i]] where [fitted_data] may be [None]. *)
Definition subscript (fitted_data : option ndarray1) (i : nat) : M world cell :=
  match fitted_data with
  | None => raise TypeError
  | Some f =>
      match f !! i with
      | Some v => ret v
      | None => raise IndexError
      end
  end.

(** One pass of the loop body:
    [d = data[:, i]; data[:, i] = np.nan_to_num(d, nan=fitted_data[i])]. *)
Definition fill_column (data : loc) (fitted_data : option ndarray1) (i : nat)
    : M world unit :=
  a <- deref data ;;
  let d := column a i in
  v <- subscript fitted_data i ;;
  store data (set_column a i (nan_to_num d v)).

Fixpoint for_range (body : nat -> M world unit) (rng : list nat) : M world unit :=
  match rng with
  | [] => ret tt
  | i :: rng' => body i ;;; for_range body rng'
  end.

(** The body shared by the three [transform] methods when [axis == 0].
    [data] is [None] when the imputer has not been fitted: reading
    [data.shape] then raises. *)
Definition transform_axis0 (data : option loc) (fitted_data : option ndarray1)
    : M world (option loc) :=
  match data with
  | None => raise AttributeError
  | Some l =>
      a <- deref l ;;
      for_range (fill_column l fitted_data) (seq 0 (shape1 a)) ;;;
      ret (Some l)
  end.

Definition Mean_transform (self : ImputerStrategy) (data : option loc)
    (fitted_data : option ndarray1) : M world (option loc) :=
  if axis self =? 0 then transform_axis0 data fitted_data
  else print (not_implemented "transform" (axis self)) ;;; ret None.

Definition Median_transform (self : ImputerStrategy) (data : option loc)
    (fitted_data : option ndarray1) : M world (option loc) :=
  if axis self =? 0 then transform_axis0 data fitted_data
  else ret None.

Definition Mode_transform (self : ImputerStrategy) (data : option loc)
    (fitted_data : option ndarray1) : M world (option loc) :=
  if axis self =? 0 then transform_axis0 data fitted_data
  else ret None.

(** Method dispatch on the strategy object. *)
Definition strategy_fit (self : ImputerStrategy) : loc -> M world (option ndarray1) :=
  match kind self with
  | Mean => Mean_fit self
  | Median => Median_fit self
  | Mode => Mode_fit self
  end.

Definition strategy_transform (self : ImputerStrategy)
    : option loc -> option ndarray1 -> M world (option loc) :=
  match kind self with
  | Mean => Mean_transform self
  | Median => Median_transform self
  | Mode => Mode_transform self
  end.

(** ** The [Imputer] class *)

Record Imputer : Type := mk_Imputer {
  _strategy : ImputerStrategy;
  _data : option loc;
  _fitted_data : option ndarray1
}.

(** Methods of an imputer run over the object's fields and the world. *)
Definition lift {A} (m : M world A) : M (Imputer * world) A :=
  fun s => let '(r, w') := m (snd s) in (r, (fst s, w')).

Definition get_self : M (Imputer * world) Imputer :=
  fun s => (Ok (fst s), s).

Definition set_data (l : loc) : M (Imputer * world) unit :=
  fun s => (Ok tt, (mk_Imputer (_strategy (fst s)) (Some l) (_fitted_data (fst s)), snd s)).

Definition set_fitted_data (f : option ndarray1) : M (Imputer * world) unit :=
  fun s => (Ok tt, (mk_Imputer (_strategy (fst s)) (_data (fst s)) f, snd s)).

(** [Imputer.fit]; the returned [self] is the object in the final state. *)
Definition Imputer_fit (data : loc) : M (Imputer * world) unit :=
  l <- lift (astype_float data) ;;
  set_data l ;;;
  self <- get_self ;;
  f <- lift (strategy_fit (_strategy self) l) ;;
  set_fitted_data f.

(** [Imputer.transform] *)
Definition Imputer_transform : M (Imputer * world) (option loc) :=
  self <- get_self ;;
  lift (strategy_transform (_strategy self) (_data self) (_fitted_data self)).

(** ** Construction *)

Module Factory.
(** The [Strategy] enumeration. *)
Inductive Strategy : Type := mean | median | mode | unknown.

(** [Strategy(s)] with the fallback of the [except ValueError] clause. *)
Definition Strategy_of_string (s : string) : Strategy :=
  if String.eqb s "mean" then mean
  else if String.eqb s "median" then median
  else if String.eqb s "mode" then mode
  else if String.eqb s "unknown" then unknown
  else unknown.

Definition create_imputer_strategy (strategy : string) (ax : Z)
    : result ImputerStrategy :=
  match Strategy_of_string strategy with
  | unknown => Raise (RuntimeError "Unknown strategy")
  | mean => Ok (mk_strategy Mean ax)
  | median => Ok (mk_strategy Median ax)
  | mode => Ok (mk_strategy Mode ax)
  end.

Definition Imputer_init (strategy : ImputerStrategy) : Imputer :=
  mk_Imputer strategy None None.
End Factory.

Module StrategyPattern.
Definition Imputer_init (strategy : string) (ax : Z) : result Imputer :=
  if String.eqb strategy "mean" then Ok (mk_Imputer (mk_strategy Mean ax) None None)
  else if String.eqb strategy "median" then Ok (mk_Imputer (mk_strategy Median ax) None None)
  else if String.eqb strategy "mode" then Ok (mk_Imputer (mk_strategy Mode ax) None None)
  else Raise (RuntimeError ("Unknown strategy: " ++ strategy ++ ".")).
End StrategyPattern.

(** ** The statistics in the words of the specification *)

(** The arithmetic mean of a list of integers: their sum over their
    number. *)
Definition exact_mean (zs : list Z) : Q :=
  fold_right Z.add 0 zs # Pos.of_nat (length zs).

(** The median of a list of integers: the middle element of the sorted
    list, or the average of the two middle elements when their number is
    even. *)
Definition exact_median (zs : list Z) : Q :=
  let s := np_sort Z.leb zs in
  let n := length s in
  if Nat.even n then (nth (n / 2 - 1) s 0 + nth (n / 2) s 0) # 2
  else inject_Z (nth (n / 2) s 0).

(** The integer a cell holds, if it holds one. *)
Definition cell_integer (x : cell) : option Z :=
  match x with
  | Fin q => if Pos.eqb (Qden q) 1 then Some (Qnum q) else None
  | _ => None
  end.

(** The non-missing values of a column, in order, when all of them are
    integers. *)
Fixpoint integer_values (col : list cell) : option (list Z) :=
  match col with
  | [] => Some []
  | x :: col' =>
      if isnan x then integer_values col'
      else match cell_integer x, integer_values col' with
           | Some z, Some zs => Some (z :: zs)
           | _, _ => None
           end
  end.

(** The sum of the absolute values. *)
Definition sum_abs (zs : list Z) : Z := fold_right (fun z acc => Z.abs z + acc) 0 zs.

(** The number of occurrences of [x] in [vs]. *)
Definition occurrences (x : cell) (vs : list cell) : nat :=
  length (filter (fun y => y = x) vs).

(** The most frequent value of a list, the smallest one on ties: a later
    candidate replaces the current one when it occurs more often, or as
    often and is smaller. *)
Definition column_mode (vs : list cell) : cell :=
  fold_left
    (fun best x =>
       if isnan best then x
       else if Nat.ltb (occurrences best vs) (occurrences x vs) then x
       else if Nat.eqb (occurrences best vs) (occurrences x vs)
               && negb (cell_leb best x) then x
       else best)
    vs NaN.

(** ** What [transform] computes, as a function on arrays *)

(** Effect of one loop iteration on a row. *)
Definition step_row (k : nat) (v : cell) (r : list cell) : list cell :=
  <[k := nan_to_num1 v (getitem r k)]> r.

(** A row after every column has been processed with statistics [f]. *)
Definition impute_row (f r : list cell) : list cell :=
  zip_with (fun x v => nan_to_num1 v x) r f.

Definition imputed (f : list cell) (a : ndarray) : ndarray :=
  mk_ndarray (shape1 a) (map (impute_row f) (rows a)).

(** A row after the first [k] columns have been processed. *)
Definition row_upto (k : nat) (f r : list cell) : list cell :=
  impute_row (take k f) (take k r) ++ drop k r.

(** The reference of the next array to be created, and the world after
    its creation. *)
Definition fresh_loc (w : world) : loc := fresh (dom (heap w)).

Definition after_alloc (w : world) (a : ndarray) : world :=
  mk_world (<[fresh_loc w := a]> (heap w)) (stdout w).

(** [n] successive calls of [Imputer.transform]. *)
Fixpoint transform_times (n : nat) : M (Imputer * world) unit :=
  match n with
  | O => ret tt
  | S n' => Imputer_transform ;;; transform_times n'
  end.

(** [Imputer.fit] followed by [Imputer.transform]. *)
Definition fit_transform (data : loc) : M (Imputer * world) (option loc) :=
  Imputer_fit data ;;; Imputer_transform.

(** The array a returned reference points to, if the call returned one. *)
Definition returned_array (r : result (option loc) * (Imputer * world))
    : option ndarray :=
  match r with
  | (Ok (Some l), (_, w)) => heap w !! l
  | _ => None
  end.

Definition all_finite (a : ndarray) : bool :=
  forallb (forallb isfinite) (rows a).

Definition isinf (x : cell) : bool := isposinf x || isneginf x.

#[global] Instance exn_eq_dec : EqDecision exn.
Proof. solve_decision. Defined.

#[global] Instance result_eq_dec {A} `{EqDecision A} : EqDecision (result A).
Proof. solve_decision. Defined.

#[global] Instance ndarray_eq_dec : EqDecision ndarray.
Proof. solve_decision. Defined.

#[global] Instance strategy_kind_eq_dec : EqDecision strategy_kind.
Proof. solve_decision. Defined.

#[global] Instance ImputerStrategy_eq_dec : EqDecision ImputerStrategy.
Proof. solve_decision. Defined.

#[global] Instance Imputer_eq_dec : EqDecision Imputer.
Proof. solve_decision. Defined.

(** [a[i, j]] *)
Definition cell_at (a : ndarray) (i j : nat) : option cell :=
  r ← rows a !! i; r !! j.

(** ** The data of the demonstration in [__main__] *)

Definition demo_age : list cell :=
  [F 44; F 27; F 30; F 38; F 40; F 35; NaN; F 48; F 50; F 37].


(** A matrix with a single column. *)
Definition column_array (col : list cell) : ndarray :=
  mk_ndarray 1 (map (fun x => [x]) col).

(** A world whose only object is the caller's array, at reference 0. *)
Definition world_with (a : ndarray) : world := mk_world {[ 0%nat := a ]} [].

Definition new_imputer (k : strategy_kind) (ax : Z) : Imputer :=
  Factory.Imputer_init (mk_strategy k ax).

Ltac by_evaluation :=
  match goal with
  | |- ?P => apply (bool_decide_unpack P); vm_compute; exact I
  end.



(** ** Vocabulary for the further properties *)

(** No cell of the row is the missing marker. *)
Definition nan_free (r : list cell) : bool :=
  forallb (fun x => negb (isnan x)) r.

Definition no_missing (a : ndarray) : bool := forallb nan_free (rows a).

(** The number of rows of [rs] equal to [r]. *)
Definition row_count (r : list cell) (rs : list (list cell)) : nat :=
  length (filter (fun y => y = r) rs).

(** The array after [transform] has gone through the columns for which
    [f] has an entry. *)
Definition partially_imputed (f : list cell) (a : ndarray) : ndarray :=
  mk_ndarray (shape1 a)
    (map (row_upto (Nat.min (shape1 a) (length f)) f) (rows a)).

(** Two arrays of the same shape, row by row. *)
Definition same_shape (a a' : ndarray) : Prop :=
  shape1 a' = shape1 a /\ map length (rows a') = map length (rows a).

(** A column whose non-missing values are integers, at least one of them,
    with absolute values that sum to less than [2^52]. *)
Definition small_integer_column (col : list cell) : bool :=
  match integer_values col with
  | Some (z :: zs) => Z.ltb (sum_abs (z :: zs)) (2 ^ 52)
  | _ => false
  end.

Definition small_integer_matrix (a : ndarray) : bool :=
  forallb (fun j => small_integer_column (column a j)) (seq 0 (shape1 a)).

(** The statistic of the mean and of the median strategy for a column
    whose non-missing values are the integers [zs]: their arithmetic mean
    rounded to a float64, respectively their median. *)
Definition integer_statistic (k : strategy_kind) (zs : list Z) : cell :=
  match k with
  | Mean => round64 (exact_mean zs)
  | _ => Fin (Q2Qc (exact_median zs))
  end.

(** The lexicographic order of rows, as numpy sorts them. *)
Definition row_le (r1 r2 : list cell) : Prop := row_leb r1 r2 = true.
Definition row_lt (r1 r2 : list cell) : Prop := row_compare r1 r2 = Lt.

(** A row of [n] cells, none of them the missing marker. *)
Definition good_row (n : nat) (r : list cell) : Prop :=
  length r = n /\ nan_free r = true.

(** * Properties *)

(** ** Cell equality and arithmetic *)

Lemma Qc_eqb_spec (a b : Qc) : Qc_eqb a b = true <-> a = b.
Proof.
  unfold Qc_eqb. split.
  - intros H. apply Qc_is_canon. now apply Qeq_bool_iff.
  - intros ->. now apply Qeq_bool_iff.
Qed.

Lemma cell_eqb_spec (x y : cell) : cell_eqb x y = true <-> x = y.
Proof.
  destruct x, y; simpl; try (split; [discriminate | congruence]);
    try (split; reflexivity).
  rewrite Qc_eqb_spec. split; congruence.
Qed.


Lemma fadd_comm (x y : cell) : fadd x y = fadd y x.
Proof.
  destruct x, y; simpl; try reflexivity.
  unfold round64. now rewrite (Qred_complete _ _ (Qplus_comm q q0)).
Qed.

(** ** Rounding: a float64 is left as it is *)

Lemma ulp_search_spec (N U0 : Z) :
  forall (fuel : nat) (U W : Z),
    U <= U0 -> (Z.to_nat (U0 - U) <= fuel)%nat -> 0 < W ->
    N < 2 ^ 53 * (W * 2 ^ (U0 - U)) ->
    exists U', ulp_search fuel U W N = (U', W * 2 ^ (U' - U))
               /\ U <= U' <= U0.
Proof.
  induction fuel as [|fuel IH]; intros U W HU Hfuel HW HN.
  - assert (U = U0) by lia. subst U0. exists U. cbn [ulp_search].
    rewrite Z.sub_diag, Z.pow_0_r, Z.mul_1_r. split; [reflexivity | lia].
  - cbn [ulp_search]. destruct (Z.ltb_spec N (2 ^ 53 * W)) as [Hlt|Hge].
    + exists U. rewrite Z.sub_diag, Z.pow_0_r, Z.mul_1_r.
      split; [reflexivity | lia].
    + assert (Hneq : U <> U0).
      { intros ->. rewrite Z.sub_diag, Z.pow_0_r, Z.mul_1_r in HN. lia. }
      assert (Hpow : 2 ^ (U0 - U) = 2 * 2 ^ (U0 - (U + 1))).
      { replace (U0 - U) with (Z.succ (U0 - (U + 1))) by lia.
        apply Z.pow_succ_r. lia. }
      assert (HN' : N < 2 ^ 53 * (2 * W * 2 ^ (U0 - (U + 1)))).
      { replace (2 * W * 2 ^ (U0 - (U + 1))) with (W * 2 ^ (U0 - U))
          by (rewrite Hpow; ring).
        exact HN. }
      destruct (IH (U + 1) (2 * W) ltac:(lia) ltac:(lia) ltac:(lia) HN')
        as (U' & HU' & Hrange).
      exists U'. split; [|lia]. rewrite HU'. f_equal.
      replace (U' - U) with (Z.succ (U' - (U + 1))) by lia.
      rewrite Z.pow_succ_r by lia. ring.
Qed.

Lemma round_half_even_exact (k D : Z) : 0 < D -> round_half_even (k * D) D = k.
Proof.
  intros HD. unfold round_half_even.
  rewrite Z.div_mul by lia. rewrite Z.mod_mul by lia.
  rewrite Z.mul_0_r. now rewrite (proj2 (Z.compare_lt_iff 0 D) HD).
Qed.

Lemma round64_pos_exact (n d : positive) (M0 U0 : Z) :
  0 < M0 < 2 ^ 53 -> 0 <= U0 <= 2045 ->
  Zpos n * 2 ^ 1074 = M0 * 2 ^ U0 * Zpos d ->
  round64_pos n d = Fin (Q2Qc (Zpos n # d)).
Proof.
  intros HM HU HN. unfold round64_pos.
  set (P := 2 ^ 1074) in *. set (B := 2 ^ 2098).
  assert (HP : 0 < P) by (apply Z.pow_pos_nonneg; lia).
  assert (H2U0 : 0 < 2 ^ U0) by (apply Z.pow_pos_nonneg; lia).
  assert (Hlt : Zpos n * P < 2 ^ 53 * (Zpos d * 2 ^ (U0 - 0))).
  { rewrite Z.sub_0_r, HN.
    replace (2 ^ 53 * (Zpos d * 2 ^ U0)) with (2 ^ 53 * 2 ^ U0 * Zpos d) by ring.
    apply Z.mul_lt_mono_pos_r; [lia|].
    apply Z.mul_lt_mono_pos_r; lia. }
  destruct (ulp_search_spec (Zpos n * P) U0 2100 0 (Zpos d)
              ltac:(lia) ltac:(lia) ltac:(lia) Hlt)
    as (U & HU' & Hrange).
  rewrite HU'. rewrite Z.sub_0_r.
  assert (H2U : 0 < 2 ^ U) by (apply Z.pow_pos_nonneg; lia).
  assert (Hsplit : 2 ^ U0 = 2 ^ (U0 - U) * 2 ^ U).
  { rewrite <- Z.pow_add_r by lia. f_equal. lia. }
  assert (HNW : Zpos n * P = (M0 * 2 ^ (U0 - U)) * (Zpos d * 2 ^ U)).
  { rewrite HN, Hsplit. ring. }
  rewrite HNW, round_half_even_exact by lia.
  assert (Hval : M0 * 2 ^ (U0 - U) * 2 ^ U = M0 * 2 ^ U0).
  { rewrite Hsplit. ring. }
  rewrite Hval.
  assert (Hbound : M0 * 2 ^ U0 < B).
  { unfold B. replace 2098 with (53 + 2045) by reflexivity.
    rewrite Z.pow_add_r by lia.
    apply Z.lt_le_trans with (2 ^ 53 * 2 ^ U0).
    - apply Z.mul_lt_mono_pos_r; lia.
    - apply Z.mul_le_mono_nonneg_l; [lia|].
      apply Z.pow_le_mono_r; lia. }
  destruct (Z.leb_spec B (M0 * 2 ^ U0)) as [Hle|_]; [lia|].
  f_equal. apply Q2Qc_eq_iff. unfold Qeq. cbn [Qnum Qden].
  rewrite Z2Pos.id by exact HP. lia.
Qed.

Lemma round64_Qeq (q q' : Q) : q == q' -> round64 q = round64 q'.
Proof. intros H. unfold round64. now rewrite (Qred_complete q q' H). Qed.

(** A value with a significand below [2^53] and an exponent in range is a
    float64: rounding leaves it as it is. *)
Lemma round64_exact (q : Q) (M0 U0 : Z) :
  Z.abs M0 < 2 ^ 53 -> 0 <= U0 <= 2045 ->
  q == (M0 * 2 ^ U0 # Z.to_pos (2 ^ 1074)) ->
  round64 q = Fin (Q2Qc q).
Proof.
  intros HM HU Hq.
  assert (HP : 0 < 2 ^ 1074) by (apply Z.pow_pos_nonneg; lia).
  assert (H2U0 : 0 < 2 ^ U0) by (apply Z.pow_pos_nonneg; lia).
  pose proof (Qred_correct q) as Hred.
  assert (Hq' : Qred q == (M0 * 2 ^ U0 # Z.to_pos (2 ^ 1074)))
    by (now rewrite Hred).
  unfold round64.
  assert (Hfin : Q2Qc q = Q2Qc (Qred q)) by (apply Q2Qc_eq_iff; now rewrite Hred).
  rewrite Hfin.
  destruct (Qred q) as [[|n|n] d]; unfold Qeq in Hq'; cbn [Qnum Qden] in Hq';
    rewrite Z2Pos.id in Hq' by exact HP.
  - f_equal. apply Q2Qc_eq_iff. unfold Qeq. reflexivity.
  - apply (round64_pos_exact n d M0 U0); [|exact HU|lia].
    split; [|lia]. 
    assert (0 < M0 * 2 ^ U0 * Zpos d) by lia. nia.
  - assert (Hpos : round64_pos n d = Fin (Q2Qc (Zpos n # d))).
    { apply (round64_pos_exact n d (- M0) U0); [|exact HU|lia].
      split; [|lia].
      assert (M0 * 2 ^ U0 * Zpos d < 0) by lia. nia. }
    rewrite Hpos. cbn [cell_opp]. f_equal. unfold Qcopp.
    apply Q2Qc_eq_iff. cbn [this Q2Qc]. rewrite Qred_correct. reflexivity.
Qed.

Lemma round64_not_nan (q : Q) : isnan (round64 q) = false.
Proof.
  assert (Hpos : forall n d, isnan (round64_pos n d) = false
                             /\ isnan (cell_opp (round64_pos n d)) = false).
  { intros n d. unfold round64_pos.
    destruct (ulp_search 2100 0 (Zpos d) (Zpos n * 2 ^ 1074)) as [U W].
    destruct (2 ^ 2098 <=? round_half_even (Zpos n * 2 ^ 1074) W * 2 ^ U);
      split; reflexivity. }
  unfold round64. destruct (Qred q) as [[|n|n] d]; [reflexivity | |];
    apply Hpos.
Qed.

(** ** Integers *)

Lemma this_Qz (z : Z) : this (Qz z) = inject_Z z.
Proof.
  unfold Qz, Q2Qc. cbn [this]. apply Qred_identity.
  cbn [inject_Z Qnum Qden]. apply Z.gcd_1_r.
Qed.

Lemma cell_integer_F (x : cell) (z : Z) : cell_integer x = Some z -> x = F z.
Proof.
  destruct x as [| |q|]; cbn [cell_integer]; try discriminate.
  destruct (Pos.eqb_spec (Qden q) 1) as [Hd|]; [|discriminate].
  intros [= <-]. unfold F. f_equal. apply Qc_is_canon. rewrite this_Qz.
  destruct q as [[n d] Hc]. cbn [this Qnum Qden] in *. subst d. reflexivity.
Qed.

Lemma cell_integer_of_F (z : Z) : cell_integer (F z) = Some z.
Proof. unfold F. cbn [cell_integer]. now rewrite this_Qz. Qed.

Lemma pow2_1074_pos : 0 < 2 ^ 1074.
Proof. apply Z.pow_pos_nonneg; lia. Qed.

Lemma round64_inject_Z (z : Z) :
  Z.abs z < 2 ^ 53 -> round64 (inject_Z z) = F z.
Proof.
  intros Hz. rewrite (round64_exact (inject_Z z) z 1074 Hz); [reflexivity|lia|].
  unfold Qeq. cbn [inject_Z Qnum Qden].
  rewrite Z2Pos.id by exact pow2_1074_pos. ring.
Qed.

Lemma fadd_F (a b : Z) : Z.abs (a + b) < 2 ^ 53 -> fadd (F a) (F b) = F (a + b).
Proof.
  intros H. unfold F at 1 2. cbn [fadd]. rewrite !this_Qz.
  rewrite (round64_Qeq _ (inject_Z (a + b))) by (now rewrite inject_Z_plus).
  now apply round64_inject_Z.
Qed.

Lemma fdiv_count_F (s : Z) (n : nat) :
  fdiv_count (F s) (S n) = round64 (s # Pos.of_succ_nat n).
Proof.
  unfold F. cbn [fdiv_count]. rewrite this_Qz. apply round64_Qeq.
  rewrite (Qmake_Qdiv s (Pos.of_succ_nat n)). reflexivity.
Qed.

Lemma fdiv_count_F_half (s : Z) :
  Z.abs s < 2 ^ 53 -> fdiv_count (F s) 2 = Fin (Q2Qc (s # 2)).
Proof.
  intros Hs. rewrite fdiv_count_F.
  change (Pos.of_succ_nat 1) with 2%positive.
  apply (round64_exact (s # 2) s 1073 Hs); [lia|].
  unfold Qeq. cbn [Qnum Qden]. rewrite Z2Pos.id by exact pow2_1074_pos.
  change 1074 with (Z.succ 1073). rewrite Z.pow_succ_r by lia. ring.
Qed.

Lemma cell_leb_F (a b : Z) : cell_leb (F a) (F b) = Z.leb a b.
Proof.
  unfold cell_leb, F. cbn [cell_compare]. unfold Qccompare.
  rewrite !this_Qz. unfold Qcompare. cbn [inject_Z Qnum Qden].
  rewrite !Z.mul_1_r. unfold Z.leb. now destruct (a ?= b).
Qed.

Lemma sum_abs_cons (z : Z) (zs : list Z) : sum_abs (z :: zs) = Z.abs z + sum_abs zs.
Proof. reflexivity. Qed.

Lemma sum_abs_nonneg (zs : list Z) : 0 <= sum_abs zs.
Proof. induction zs as [|z zs IH]; [reflexivity|]. rewrite sum_abs_cons. lia. Qed.

Lemma sum_abs_bound (zs : list Z) (z : Z) : z ∈ zs -> Z.abs z <= sum_abs zs.
Proof.
  induction zs as [|y zs IH]; intros Hin; [now apply elem_of_nil in Hin|].
  rewrite sum_abs_cons. pose proof (sum_abs_nonneg zs).
  apply elem_of_cons in Hin as [-> | Hin]; [lia|]. apply IH in Hin. lia.
Qed.

(** ** Sorting *)

Section SortingFacts.
Context {A : Type} (leb : A -> A -> bool).
Hypothesis leb_total : forall x y, leb x y = false -> leb y x = true.

Lemma insert_sorted_perm (x : A) (l : list A) :
  Permutation (insert_sorted leb x l) (x :: l).
Proof.
  induction l as [|y l IH]; simpl; [reflexivity|].
  destruct (leb x y); [reflexivity|].
  rewrite IH. apply perm_swap.
Qed.

Lemma np_sort_perm (l : list A) : Permutation (np_sort leb l) l.
Proof.
  induction l as [|x l IH]; simpl; [reflexivity|].
  rewrite insert_sorted_perm. now rewrite IH.
Qed.

Lemma np_sort_length (l : list A) : length (np_sort leb l) = length l.
Proof. apply Permutation_length, np_sort_perm. Qed.

Lemma insert_sorted_sorted (x : A) (l : list A) :
  Sorted (fun a b => leb a b = true) l ->
  Sorted (fun a b => leb a b = true) (insert_sorted leb x l).
Proof.
  induction l as [|y l IH]; intros Hs; simpl.
  - repeat constructor.
  - destruct (leb x y) eqn:E.
    + constructor; [assumption | constructor; assumption].
    + apply Sorted_inv in Hs as [Hs Hhd].
      constructor; [now apply IH|].
      destruct l as [|z l]; simpl.
      * constructor. now apply leb_total.
      * destruct (leb x z); constructor.
        -- now apply leb_total.
        -- now apply HdRel_inv in Hhd.
Qed.

Lemma np_sort_sorted (l : list A) :
  Sorted (fun a b => leb a b = true) (np_sort leb l).
Proof.
  induction l as [|x l IH]; simpl; [constructor|].
  now apply insert_sorted_sorted.
Qed.
End SortingFacts.

Lemma cell_compare_antisym (x y : cell) :
  cell_compare y x = CompOpp (cell_compare x y).
Proof.
  destruct x, y; simpl; try reflexivity.
  unfold Qccompare. now rewrite <- Qcompare_antisym.
Qed.

Lemma cell_leb_total (x y : cell) : cell_leb x y = false -> cell_leb y x = true.
Proof.
  unfold cell_leb. rewrite (cell_compare_antisym x y).
  destruct (cell_compare x y); simpl; congruence.
Qed.


(** ** Columns of integers *)

Lemma lookup_map_seq {A} (g : nat -> A) (n j : nat) :
  (j < n)%nat -> map g (seq 0 n) !! j = Some (g j).
Proof.
  intros Hlt. rewrite list_lookup_fmap, lookup_seq_lt by exact Hlt. reflexivity.
Qed.

Lemma integer_values_remove_nan (col : list cell) (zs : list Z) :
  integer_values col = Some zs -> remove_nan col = map F zs.
Proof.
  revert zs. unfold remove_nan.
  induction col as [|x col IH]; intros zs H; cbn [integer_values] in H.
  - now injection H as <-.
  - destruct (isnan x) eqn:Hnan.
    + rewrite filter_cons_False by congruence. now apply IH.
    + rewrite filter_cons_True by exact Hnan.
      destruct (cell_integer x) as [z|] eqn:Hz; [|discriminate].
      destruct (integer_values col) as [zs'|]; [|discriminate].
      injection H as <-. cbn [map]. f_equal; [now apply cell_integer_F|].
      now apply IH.
Qed.

Lemma integer_values_all_nan (col : list cell) :
  Forall (fun x => isnan x = true) col -> integer_values col = Some [].
Proof.
  induction 1 as [|x col Hx _ IH]; [reflexivity|].
  cbn [integer_values]. now rewrite Hx.
Qed.

Lemma integer_values_count (col : list cell) (zs : list Z) :
  integer_values col = Some zs -> count_nonnan col = length zs.
Proof.
  intros H. unfold count_nonnan. fold (remove_nan col).
  rewrite (integer_values_remove_nan col zs H). apply length_map.
Qed.

Lemma sum_integer_column (col : list cell) :
  forall (zs : list Z) (acc : Z),
    integer_values col = Some zs ->
    Z.abs acc + sum_abs zs < 2 ^ 53 ->
    fold_left fadd (map (replace_nan (Fin 0%Qc)) col) (F acc)
    = F (acc + fold_right Z.add 0 zs).
Proof.
  induction col as [|x col IH]; intros zs acc H Hb; cbn [integer_values] in H.
  - injection H as <-. cbn. now rewrite Z.add_0_r.
  - cbn [map fold_left]. unfold replace_nan at 2.
    destruct (isnan x) eqn:Hnan.
    + change (Fin 0%Qc) with (F 0) at 2.
      pose proof (sum_abs_nonneg zs).
      rewrite fadd_F by (rewrite Z.add_0_r; lia).
      rewrite Z.add_0_r. now apply IH.
    + destruct (cell_integer x) as [z|] eqn:Hz; [|discriminate].
      destruct (integer_values col) as [zs'|] eqn:Hzs; [|discriminate].
      injection H as <-. apply cell_integer_F in Hz. subst x.
      rewrite sum_abs_cons in Hb. pose proof (sum_abs_nonneg zs').
      rewrite fadd_F by lia.
      rewrite (IH zs' (acc + z) eq_refl) by lia.
      cbn [fold_right]. f_equal. lia.
Qed.

(** The mean of a column of integers whose absolute values sum to less
    than [2^53]: every partial sum is exact, in whatever order it is taken,
    and the quotient is rounded once. *)
Lemma nanmean1d_integers (col : list cell) (zs : list Z) :
  integer_values col = Some zs -> sum_abs zs < 2 ^ 53 ->
  nanmean1d col
  = match zs with
    | [] => NaN
    | _ => round64 (exact_mean zs)
    end.
Proof.
  intros H Hb. unfold nanmean1d, np_sum.
  change (Fin 0%Qc) with (F 0) at 2.
  rewrite (sum_integer_column col zs 0 H) by (cbn; lia).
  rewrite (integer_values_count col zs H). rewrite Z.add_0_l.
  destruct zs as [|z zs]; [reflexivity|].
  cbn [length]. rewrite fdiv_count_F. unfold exact_mean. cbn [length].
  now rewrite Pos.of_nat_succ.
Qed.

Lemma nanmean1d_all_nan (col : list cell) :
  Forall (fun x => isnan x = true) col -> nanmean1d col = NaN.
Proof.
  intros H.
  now rewrite (nanmean1d_integers col [] (integer_values_all_nan col H)).
Qed.

Lemma nanmedian1d_all_nan (col : list cell) :
  Forall (fun x => isnan x = true) col -> nanmedian1d col = NaN.
Proof.
  intros H. unfold nanmedian1d.
  now rewrite (integer_values_remove_nan col [] (integer_values_all_nan col H)).
Qed.

Lemma insert_sorted_map {A B} (f : A -> B) (leA : A -> A -> bool)
    (leB : B -> B -> bool) (x : A) (l : list A) :
  (forall a b, leB (f a) (f b) = leA a b) ->
  insert_sorted leB (f x) (map f l) = map f (insert_sorted leA x l).
Proof.
  intros Hle. induction l as [|y l IH]; [reflexivity|].
  cbn [map insert_sorted]. rewrite Hle.
  destruct (leA x y); [reflexivity|]. cbn [map]. now rewrite IH.
Qed.

Lemma np_sort_map {A B} (f : A -> B) (leA : A -> A -> bool)
    (leB : B -> B -> bool) (l : list A) :
  (forall a b, leB (f a) (f b) = leA a b) ->
  np_sort leB (map f l) = map f (np_sort leA l).
Proof.
  intros Hle. induction l as [|x l IH]; [reflexivity|].
  cbn [map np_sort]. rewrite IH. now apply insert_sorted_map.
Qed.

Lemma getitem_map_F (s : list Z) (k : nat) :
  (k < length s)%nat -> getitem (map F s) k = F (nth k s 0).
Proof.
  intros Hk. unfold getitem. rewrite list_lookup_fmap.
  destruct (lookup_lt_is_Some_2 s k Hk) as [z Hz]. rewrite Hz. cbn.
  f_equal. symmetry. now apply nth_lookup_Some with (d := 0) in Hz.
Qed.

Lemma np_median_middle (l : list cell) :
  l <> [] ->
  let s := np_sort cell_leb l in
  let h := (length s / 2)%nat in
  np_median l
  = if Nat.odd (length s) then np_mean [getitem s h]
    else np_mean [getitem s (h - 1); getitem s h].
Proof.
  intros Hne. unfold np_median. cbv zeta.
  set (s := np_sort cell_leb l).
  assert (Hlen : length s <> 0%nat).
  { unfold s. rewrite np_sort_length. destruct l; simpl; congruence. }
  destruct (Nat.odd (length s)) eqn:Hodd.
  - assert (Hlt : (length s / 2 < length s)%nat)
      by (apply Nat.div_lt; lia).
    destruct (lookup_lt_is_Some_2 s _ Hlt) as [x Hx].
    rewrite (drop_S _ _ _ Hx).
    unfold getitem. rewrite Hx. reflexivity.
  - assert (Heven : Nat.even (length s) = true)
      by (rewrite <- Nat.negb_odd, Hodd; reflexivity).
    apply Nat.even_spec in Heven as [k Hk].
    assert (Hk1 : (1 <= k)%nat) by lia.
    assert (Hdiv : (length s / 2 = k)%nat).
    { rewrite Hk. rewrite Nat.mul_comm. now apply Nat.div_mul. }
    rewrite Hdiv.
    assert (Hlt1 : (k - 1 < length s)%nat) by lia.
    assert (Hlt2 : (S (k - 1) < length s)%nat) by lia.
    destruct (lookup_lt_is_Some_2 s _ Hlt1) as [x Hx].
    destruct (lookup_lt_is_Some_2 s _ Hlt2) as [y Hy].
    rewrite (drop_S _ _ _ Hx), (drop_S _ _ _ Hy).
    unfold getitem. rewrite Hx.
    replace k with (S (k - 1)) at 2 by lia. rewrite Hy. reflexivity.
Qed.

(** The median of a column of integers below [2^52] in absolute value:
    the sum of the two middle values and its half are exact. *)
Lemma nanmedian1d_integers (col : list cell) (zs : list Z) :
  integer_values col = Some zs ->
  Forall (fun z => Z.abs z < 2 ^ 52) zs ->
  nanmedian1d col
  = match zs with
    | [] => NaN
    | _ => Fin (Q2Qc (exact_median zs))
    end.
Proof.
  intros H Hb. unfold nanmedian1d.
  rewrite (integer_values_remove_nan col zs H).
  destruct zs as [|z0 zs0]; [reflexivity|].
  cbn [map]. cbv iota.
  change (F z0 :: map F zs0) with (map F (z0 :: zs0)).
  remember (z0 :: zs0) as zs eqn:Ezs.
  assert (Hne : zs <> []) by (rewrite Ezs; discriminate).
  set (sz := np_sort Z.leb zs).
  assert (Hsort : np_sort cell_leb (map F zs) = map F sz)
    by (apply np_sort_map, cell_leb_F).
  assert (Hlen : length sz = length zs) by apply np_sort_length.
  assert (Hpos : (0 < length sz)%nat)
    by (rewrite Hlen, Ezs; cbn; lia).
  assert (Hsmall : forall k, (k < length sz)%nat -> Z.abs (nth k sz 0) < 2 ^ 52).
  { intros k Hk. rewrite Forall_forall in Hb. apply Hb.
    rewrite <- (np_sort_perm Z.leb zs). fold sz.
    apply list_elem_of_In, nth_In. exact Hk. }
  assert (Hh : (length sz / 2 < length sz)%nat) by (apply Nat.div_lt; lia).
  assert (Hpow : 2 ^ 53 = 2 * 2 ^ 52) by reflexivity.
  assert (Hodd_case : fdiv_count (fadd (F (nth (length sz / 2) sz 0))
                                       (F (nth (length sz / 2) sz 0))) 2
                      = Fin (Q2Qc (inject_Z (nth (length sz / 2) sz 0)))).
  { pose proof (Hsmall _ Hh) as Hx.
    rewrite fadd_F by lia. rewrite fdiv_count_F_half by lia.
    f_equal. apply Q2Qc_eq_iff. unfold Qeq. cbn [inject_Z Qnum Qden]. lia. }
  assert (Heven_case : Nat.even (length sz) = true ->
            fdiv_count (fadd (F (nth (length sz / 2 - 1) sz 0))
                             (F (nth (length sz / 2) sz 0))) 2
            = Fin (Q2Qc ((nth (length sz / 2 - 1) sz 0
                          + nth (length sz / 2) sz 0) # 2))).
  { intros _. pose proof (Hsmall _ Hh) as Hx.
    pose proof (Hsmall (length sz / 2 - 1)%nat ltac:(lia)) as Hy.
    rewrite fadd_F by lia. now rewrite fdiv_count_F_half by lia. }
  assert (Hexact : exact_median zs
                   = if Nat.even (length sz)
                     then (nth (length sz / 2 - 1) sz 0
                           + nth (length sz / 2) sz 0) # 2
                     else inject_Z (nth (length sz / 2) sz 0))
    by reflexivity.
  rewrite Hexact.
  assert (Hmne : map F zs <> []) by (rewrite Ezs; discriminate).
  destruct (Nat.ltb (length col) 600).
  - unfold ma_median. cbv zeta. rewrite Hsort, length_map.
    rewrite !getitem_map_F by lia.
    rewrite <- Nat.negb_odd.
    destruct (Nat.odd (length sz)) eqn:Hodd; cbn [negb].
    + exact Hodd_case.
    + apply Heven_case. now rewrite <- Nat.negb_odd, Hodd.
  - rewrite (np_median_middle (map F zs) Hmne). cbv zeta.
    rewrite Hsort, length_map. rewrite !getitem_map_F by lia.
    rewrite <- Nat.negb_odd.
    destruct (Nat.odd (length sz)) eqn:Hodd; cbn [negb].
    + unfold np_mean, np_sum. cbn [fold_left length].
      change (Fin 0%Qc) with (F 0).
      pose proof (Hsmall _ Hh) as Hx.
      rewrite fadd_F by (rewrite Z.add_0_l; lia). rewrite Z.add_0_l.
      rewrite fdiv_count_F. change (Pos.of_succ_nat 0) with 1%positive.
      apply (round64_inject_Z (nth (length sz / 2) sz 0)). lia.
    + unfold np_mean, np_sum. cbn [fold_left length].
      change (Fin 0%Qc) with (F 0).
      pose proof (Hsmall _ Hh) as Hx.
      pose proof (Hsmall (length sz / 2 - 1)%nat ltac:(lia)) as Hy.
      rewrite fadd_F by (rewrite Z.add_0_l; lia). rewrite Z.add_0_l.
      apply Heven_case. now rewrite <- Nat.negb_odd, Hodd.
Qed.

(** ** The column loop of [transform] *)

Lemma zip_with_map_same {A B C} (g : A -> B -> C) (h : A -> B) (l : list A) :
  zip_with g l (map h l) = map (fun x => g x (h x)) l.
Proof. induction l as [|x l IH]; simpl; [reflexivity | now rewrite IH]. Qed.

Lemma set_column_nan_to_num (a : ndarray) (k : nat) (v : cell) :
  set_column a k (nan_to_num (column a k) v)
  = mk_ndarray (shape1 a) (map (step_row k v) (rows a)).
Proof.
  unfold set_column, nan_to_num, column. f_equal.
  rewrite map_map. apply zip_with_map_same.
Qed.

Lemma row_upto_0 (f r : list cell) : row_upto 0 f r = r.
Proof. reflexivity. Qed.

Lemma row_upto_all (k : nat) (f r : list cell) :
  (length r <= k)%nat -> (length f <= k)%nat -> row_upto k f r = impute_row f r.
Proof.
  intros Hr Hf. unfold row_upto.
  rewrite !take_ge by lia. rewrite drop_ge by lia. apply app_nil_r.
Qed.

Lemma step_row_upto (k : nat) (v : cell) (f r : list cell) :
  f !! k = Some v -> (k < length r)%nat ->
  step_row k v (row_upto k f r) = row_upto (S k) f r.
Proof.
  revert f r. induction k as [|k IH]; intros f r Hf Hr.
  - destruct f as [|v0 f]; [discriminate|]. injection Hf as ->.
    destruct r as [|x r]; [simpl in Hr; lia|]. reflexivity.
  - destruct f as [|v0 f]; [discriminate|].
    destruct r as [|x r]; [simpl in Hr; lia|].
    simpl in Hf, Hr.
    specialize (IH f r Hf ltac:(lia)).
    unfold step_row, row_upto, impute_row, getitem in *.
    cbn [firstn skipn zip_with app]. cbn [firstn skipn zip_with app] in IH.
    change ((nan_to_num1 v0 x :: ?l) !! S k) with (l !! k).
    cbn [lookup list_lookup insert list_insert].
    f_equal. exact IH.
Qed.

Lemma world_eta (w : world) : mk_world (heap w) (stdout w) = w.
Proof. now destruct w. Qed.

Lemma fill_column_ok (l : loc) (f : list cell) (i : nat) (v : cell)
    (a : ndarray) (w : world) :
  heap w !! l = Some a -> f !! i = Some v ->
  fill_column l (Some f) i w
  = (Ok tt, mk_world (<[l := mk_ndarray (shape1 a) (map (step_row i v) (rows a))]> (heap w))
                     (stdout w)).
Proof.
  intros Ha Hv. unfold fill_column, bind, deref, subscript, store, ret.
  rewrite Ha, Hv. cbn. now rewrite set_column_nan_to_num.
Qed.

Lemma for_range_fill (l : loc) (f : list cell) (n : nat) (rs : list (list cell)) :
  forall (m k : nat) (w : world),
    heap w !! l = Some (mk_ndarray n (map (row_upto k f) rs)) ->
    (k + m <= length f)%nat ->
    Forall (fun r => (k + m <= length r)%nat) rs ->
    for_range (fill_column l (Some f)) (seq k m) w
    = (Ok tt, mk_world (<[l := mk_ndarray n (map (row_upto (k + m) f) rs)]> (heap w))
                       (stdout w)).
Proof.
  induction m as [|m IH]; intros k w Hw Hf Hrs.
  - cbn. rewrite Nat.add_0_r. rewrite insert_id by exact Hw.
    now rewrite world_eta.
  - assert (Hk : is_Some (f !! k)) by (apply lookup_lt_is_Some_2; lia).
    destruct Hk as [v Hv].
    cbn [seq for_range]. unfold bind at 1.
    rewrite (fill_column_ok _ _ _ _ _ _ Hw Hv). cbn [shape1 rows].
    assert (Hstep : map (step_row k v) (map (row_upto k f) rs)
                    = map (row_upto (S k) f) rs).
    { rewrite map_map. apply map_ext_Forall.
      eapply Forall_impl; [exact Hrs|].
      intros r Hr. simpl in Hr. apply step_row_upto; [exact Hv | lia]. }
    rewrite Hstep.
    rewrite IH.
    + cbn [heap stdout]. rewrite insert_insert_eq.
      now replace (S k + m)%nat with (k + S m)%nat by lia.
    + cbn [heap]. apply lookup_insert_eq.
    + lia.
    + eapply Forall_impl; [exact Hrs|]. intros r Hr. simpl in Hr. lia.
Qed.

Lemma well_shaped_Forall (a : ndarray) :
  well_shaped a = true <-> Forall (fun r => length r = shape1 a) (rows a).
Proof.
  unfold well_shaped. rewrite forallb_forall, Forall_forall.
  split; intros H r Hr.
  - apply Nat.eqb_eq, H. now apply list_elem_of_In.
  - apply Nat.eqb_eq, H. now apply list_elem_of_In.
Qed.

Lemma transform_axis0_ok (l : loc) (f : list cell) (a : ndarray) (w : world) :
  heap w !! l = Some a -> well_shaped a = true -> length f = shape1 a ->
  transform_axis0 (Some l) (Some f) w
  = (Ok (Some l), mk_world (<[l := imputed f a]> (heap w)) (stdout w)).
Proof.
  intros Hw Hwf Hlen. apply well_shaped_Forall in Hwf.
  unfold transform_axis0, bind, deref. rewrite Hw.
  destruct a as [n rs]. cbn [shape1 rows] in *.
  rewrite (for_range_fill l f n rs n 0 w).
  - cbn. unfold imputed. cbn [shape1 rows].
    assert (E : map (row_upto n f) rs = map (impute_row f) rs).
    { apply map_ext_Forall. eapply Forall_impl; [exact Hwf|].
      intros r Hr. simpl in Hr. apply row_upto_all; lia. }
    now rewrite E.
  - rewrite Hw. do 2 f_equal. symmetry. apply map_id.
  - lia.
  - eapply Forall_impl; [exact Hwf|]. intros r Hr. simpl in Hr. lia.
Qed.

(** ** Mode: the fitted vector is a row of the matrix *)

Lemma unique_runs_fst (first prev : list cell) (cnt : nat) (rest : list (list cell)) :
  forall r, r ∈ map fst (unique_runs first prev cnt rest) -> r ∈ first :: rest.
Proof.
  revert first prev cnt. induction rest as [|x rest IH]; intros first prev cnt r Hr.
  - simpl in Hr. apply list_elem_of_singleton in Hr. subst. left.
  - simpl in Hr. destruct (row_ne x prev).
    + simpl in Hr. apply elem_of_cons in Hr as [->|Hr]; [left|].
      right. eapply IH. exact Hr.
    + apply IH in Hr. apply elem_of_cons in Hr as [->|Hr]; [left|].
      right. now right.
Qed.

Lemma argmax_from_lt (c : list nat) :
  forall best_i best i, (best_i < i)%nat ->
    (argmax_from best_i best i c < i + length c)%nat.
Proof.
  induction c as [|x c IH]; intros best_i best i Hlt; simpl.
  - lia.
  - destruct (Nat.ltb best x).
    + specialize (IH i x (S i) ltac:(lia)). lia.
    + specialize (IH best_i best (S i) ltac:(lia)). lia.
Qed.

Lemma argmax_lt (c : list nat) (i : nat) :
  argmax c = Some i -> (i < length c)%nat.
Proof.
  destruct c as [|x c]; [discriminate|]. simpl. intros [= <-].
  pose proof (argmax_from_lt c 0 x 1 ltac:(lia)). lia.
Qed.

Lemma Mode_fit_axis0 (s : ImputerStrategy) (l : loc) (w : world) (a : ndarray) :
  axis s = 0 -> heap w !! l = Some a ->
  (rows a = [] /\ Mode_fit s l w = (Raise ValueError, w))
  \/ (exists r, r ∈ rows a /\ Mode_fit s l w = (Ok (Some r), w)).
Proof.
  intros Hax Hw. unfold Mode_fit, bind, deref. rewrite Hax.
  change (0 =? 0) with true. cbv beta iota. rewrite Hw. cbv beta iota.
  unfold np_unique.
  pose proof (np_sort_perm row_leb (rows a)) as Hperm.
  destruct (np_sort row_leb (rows a)) as [|r0 rest] eqn:Hs.
  - left. apply Permutation_nil in Hperm. split; [exact Hperm | reflexivity].
  - right. set (runs := unique_runs r0 r0 1 rest).
    destruct (argmax (map snd runs)) as [i|] eqn:Hi.
    + pose proof (argmax_lt _ _ Hi) as Hlt. rewrite length_map in Hlt.
      assert (Hu : is_Some (map fst runs !! i))
        by (apply lookup_lt_is_Some_2; now rewrite length_map).
      destruct Hu as [r Hr]. exists r. rewrite Hr. split; [|reflexivity].
      apply list_elem_of_lookup_2 in Hr.
      apply unique_runs_fst in Hr.
      rewrite <- Hperm. exact Hr.
    + exfalso. unfold runs in Hi. destruct rest as [|x rest]; simpl in Hi.
      * discriminate.
      * destruct (row_ne x r0); simpl in Hi; [discriminate|].
        destruct (unique_runs r0 x 2 rest) as [|p q] eqn:E; simpl in Hi;
          [|discriminate].
        clear -E. revert E. generalize 2%nat. generalize x at 1. generalize r0.
        induction rest as [|y rest IH]; intros f p n; simpl; [discriminate|].
        destruct (row_ne y p); [discriminate | apply IH].
Qed.

(** ** [fit] of the strategies and of the imputer *)

Lemma Mean_fit_axis0 (s : ImputerStrategy) (l : loc) (w : world) (a : ndarray) :
  axis s = 0 -> heap w !! l = Some a ->
  Mean_fit s l w = (Ok (Some (nanmean a)), w).
Proof.
  intros Hax Hw. unfold Mean_fit, bind, deref, ret. rewrite Hax.
  change (0 =? 0) with true. cbv beta iota. now rewrite Hw.
Qed.

Lemma Median_fit_axis0 (s : ImputerStrategy) (l : loc) (w : world) (a : ndarray) :
  axis s = 0 -> heap w !! l = Some a ->
  Median_fit s l w = (Ok (Some (nanmedian a)), w).
Proof.
  intros Hax Hw. unfold Median_fit, bind, deref, ret. rewrite Hax.
  change (0 =? 0) with true. cbv beta iota. now rewrite Hw.
Qed.

Lemma Imputer_fit_unfold (i : Imputer) (w : world) (data : loc) (a : ndarray) :
  heap w !! data = Some a ->
  Imputer_fit data (i, w)
  = match strategy_fit (_strategy i) (fresh_loc w) (after_alloc w a) with
    | (Ok f, w2) =>
        (Ok tt, (mk_Imputer (_strategy i) (Some (fresh_loc w)) f, w2))
    | (Raise e, w2) =>
        (Raise e, (mk_Imputer (_strategy i) (Some (fresh_loc w)) (_fitted_data i), w2))
    end.
Proof.
  intros Hw.
  unfold Imputer_fit, bind, lift, astype_float, bind, deref, alloc,
    set_data, get_self, set_fitted_data.
  cbn [fst snd]. rewrite Hw. cbn [fst snd _strategy _data _fitted_data].
  fold (fresh_loc w). fold (after_alloc w a).
  destruct (strategy_fit (_strategy i) (fresh_loc w) (after_alloc w a)) as [[f|e] w2];
    reflexivity.
Qed.

Lemma fresh_loc_fresh (w : world) : heap w !! fresh_loc w = None.
Proof. unfold fresh_loc. apply not_elem_of_dom, is_fresh. Qed.

Lemma after_alloc_new (w : world) (a : ndarray) :
  heap (after_alloc w a) !! fresh_loc w = Some a.
Proof. unfold after_alloc. cbn [heap]. apply lookup_insert_eq. Qed.

Lemma after_alloc_old (w : world) (a : ndarray) (l : loc) :
  is_Some (heap w !! l) -> heap (after_alloc w a) !! l = heap w !! l.
Proof.
  intros [b Hb]. unfold after_alloc. cbn [heap].
  apply lookup_insert_ne. intros E. rewrite <- E, fresh_loc_fresh in Hb.
  discriminate.
Qed.

Lemma strategy_transform_axis0 (s : ImputerStrategy) (d : option loc)
    (f : option (list cell)) :
  axis s = 0 -> strategy_transform s d f = transform_axis0 d f.
Proof.
  intros Hax. unfold strategy_transform, Mean_transform, Median_transform,
    Mode_transform. rewrite Hax. now destruct (kind s).
Qed.

(** ** Frame: what the methods leave alone *)

Lemma fill_column_frame (l : loc) (f : option (list cell)) (i : nat) (w : world)
    (l0 : loc) :
  l0 <> l -> heap (fill_column l f i w).2 !! l0 = heap w !! l0.
Proof.
  intros Hne. unfold fill_column, bind, deref, subscript, store, ret, raise.
  destruct (heap w !! l) as [a|]; [|reflexivity].
  destruct f as [f|]; [|reflexivity].
  destruct (f !! i); [|reflexivity].
  cbn. now apply lookup_insert_ne.
Qed.

Lemma for_range_frame (l : loc) (f : option (list cell)) (rng : list nat)
    (l0 : loc) :
  l0 <> l ->
  forall w, heap (for_range (fill_column l f) rng w).2 !! l0 = heap w !! l0.
Proof.
  intros Hne. induction rng as [|i rng IH]; intros w; [reflexivity|].
  cbn [for_range]. unfold bind.
  pose proof (fill_column_frame l f i w l0 Hne) as Hstep.
  destruct (fill_column l f i w) as [[[]|e] w1]; cbn [snd] in *.
  - now rewrite IH.
  - exact Hstep.
Qed.

Lemma transform_axis0_frame (d : option loc) (f : option (list cell))
    (w : world) (l0 : loc) :
  d <> Some l0 -> heap (transform_axis0 d f w).2 !! l0 = heap w !! l0.
Proof.
  intros Hne. unfold transform_axis0.
  destruct d as [l|]; [|reflexivity].
  assert (Hl : l0 <> l) by congruence.
  unfold bind, deref. destruct (heap w !! l) as [a|]; [|reflexivity].
  pose proof (for_range_frame l f (seq 0 (shape1 a)) l0 Hl w) as Hloop.
  destruct (for_range (fill_column l f) (seq 0 (shape1 a)) w) as [[[]|e] w1];
    exact Hloop.
Qed.

Lemma strategy_transform_frame (s : ImputerStrategy) (d : option loc)
    (f : option (list cell)) (w : world) (l0 : loc) :
  d <> Some l0 -> heap (strategy_transform s d f w).2 !! l0 = heap w !! l0.
Proof.
  intros Hne.
  unfold strategy_transform, Mean_transform, Median_transform, Mode_transform.
  destruct (kind s), (axis s =? 0);
    try apply transform_axis0_frame; try assumption; reflexivity.
Qed.

Lemma strategy_fit_heap (s : ImputerStrategy) (l : loc) (w : world) :
  heap (strategy_fit s l w).2 = heap w.
Proof.
  unfold strategy_fit, Mean_fit, Median_fit, Mode_fit, bind, deref, ret, raise.
  destruct (kind s), (axis s =? 0); try reflexivity;
    destruct (heap w !! l) as [a|]; try reflexivity.
  destruct (np_unique a) as [u c].
  destruct (argmax c) as [i|]; [|reflexivity].
  destruct (u !! i); reflexivity.
Qed.

Lemma Imputer_transform_self (i : Imputer) (w : world) :
  (Imputer_transform (i, w)).2.1 = i.
Proof.
  unfold Imputer_transform, bind, get_self, lift. cbn [fst snd].
  destruct (strategy_transform _ _ _ w) as [r w']. now destruct r.
Qed.

Lemma Imputer_transform_frame (i : Imputer) (w : world) (l0 : loc) :
  _data i <> Some l0 ->
  heap (Imputer_transform (i, w)).2.2 !! l0 = heap w !! l0.
Proof.
  intros Hne. unfold Imputer_transform, bind, get_self, lift. cbn [fst snd].
  pose proof (strategy_transform_frame (_strategy i) (_data i) (_fitted_data i)
                w l0 Hne) as Hfr.
  destruct (strategy_transform _ _ _ w) as [r w']. now destruct r.
Qed.

Lemma transform_times_frame (n : nat) (l0 : loc) :
  forall (i : Imputer) (w : world),
    _data i <> Some l0 ->
    heap (transform_times n (i, w)).2.2 !! l0 = heap w !! l0.
Proof.
  induction n as [|n IH]; intros i w Hne; [reflexivity|].
  cbn [transform_times]. unfold bind.
  pose proof (Imputer_transform_self i w) as Hself.
  pose proof (Imputer_transform_frame i w l0 Hne) as Hfr.
  destruct (Imputer_transform (i, w)) as [r [i1 w1]]. cbn [fst snd] in *.
  subst i1. destruct r as [o|e]; cbn [snd]; [|exact Hfr].
  now rewrite IH.
Qed.

Lemma Imputer_fit_frame (i : Imputer) (w : world) (data : loc) (a : ndarray) :
  heap w !! data = Some a ->
  _data (Imputer_fit data (i, w)).2.1 = Some (fresh_loc w)
  /\ forall l0, is_Some (heap w !! l0) ->
       heap (Imputer_fit data (i, w)).2.2 !! l0 = heap w !! l0.
Proof.
  intros Hw. rewrite (Imputer_fit_unfold i w data a Hw).
  pose proof (strategy_fit_heap (_strategy i) (fresh_loc w) (after_alloc w a)) as Hh.
  destruct (strategy_fit _ _ _) as [[f|e] w2]; cbn [fst snd _data] in *;
    (split; [reflexivity|]); intros l0 Hl0; rewrite Hh;
    now apply after_alloc_old.
Qed.

(** ** Cells of the transformed array *)

Lemma cell_at_imputed (f : list cell) (a : ndarray) (i j : nat) :
  cell_at (imputed f a) i j
  = x ← cell_at a i j; v ← f !! j; Some (nan_to_num1 v x).
Proof.
  unfold cell_at, imputed. cbn [rows]. rewrite list_lookup_fmap.
  destruct (rows a !! i) as [r|]; [|reflexivity]. cbn.
  unfold impute_row. rewrite lookup_zip_with.
  destruct (r !! j); reflexivity.
Qed.

Lemma imputed_well_shaped (f : list cell) (a : ndarray) :
  well_shaped a = true -> length f = shape1 a ->
  well_shaped (imputed f a) = true.
Proof.
  intros Hwf Hlen. apply well_shaped_Forall in Hwf. apply well_shaped_Forall.
  unfold imputed. cbn [rows shape1]. apply Forall_fmap.
  eapply Forall_impl; [exact Hwf|]. intros r Hr. simpl in *.
  unfold impute_row. rewrite length_zip_with. lia.
Qed.

Lemma impute_row_finite (f r : list cell) :
  forallb isfinite r = true -> (length r <= length f)%nat -> impute_row f r = r.
Proof.
  revert f. induction r as [|x r IH]; intros f Hfin Hlen; [reflexivity|].
  destruct f as [|v f]; [simpl in Hlen; lia|].
  simpl in Hfin, Hlen. apply andb_true_iff in Hfin as [Hx Hr].
  unfold impute_row in *. cbn [zip_with]. rewrite IH by (assumption || lia).
  destruct x; try discriminate. reflexivity.
Qed.

Lemma imputed_finite (f : list cell) (a : ndarray) :
  well_shaped a = true -> all_finite a = true -> length f = shape1 a ->
  imputed f a = a.
Proof.
  intros Hwf Hfin Hlen. apply well_shaped_Forall in Hwf.
  unfold all_finite in Hfin. rewrite forallb_forall in Hfin.
  destruct a as [n rs]. unfold imputed. cbn [shape1 rows] in *. f_equal.
  rewrite <- (map_id rs) at 2. apply map_ext_Forall.
  rewrite Forall_forall in *. intros r Hr.
  apply impute_row_finite.
  - apply Hfin. now apply list_elem_of_In.
  - rewrite (Hwf r Hr). lia.
Qed.

Lemma nan_to_num1_idem (v x : cell) :
  isinf v = false -> nan_to_num1 v (nan_to_num1 v x) = nan_to_num1 v x.
Proof. intros Hv. destruct x; simpl; try reflexivity. now destruct v. Qed.

Lemma impute_row_idem (f r : list cell) :
  forallb (fun v => negb (isinf v)) f = true ->
  impute_row f (impute_row f r) = impute_row f r.
Proof.
  revert f. induction r as [|x r IH]; intros f Hf; [reflexivity|].
  destruct f as [|v f]; [reflexivity|].
  simpl in Hf. apply andb_true_iff in Hf as [Hv Hf].
  unfold impute_row in *. cbn [zip_with]. rewrite IH by assumption.
  rewrite nan_to_num1_idem; [reflexivity|]. now apply negb_true_iff.
Qed.

Lemma imputed_idem (f : list cell) (a : ndarray) :
  forallb (fun v => negb (isinf v)) f = true ->
  imputed f (imputed f a) = imputed f a.
Proof.
  intros Hf. unfold imputed. cbn [shape1 rows]. f_equal.
  rewrite map_map. apply map_ext. intros r. now apply impute_row_idem.
Qed.

(** C3, as amended: with a statistic vector as long as the matrix is wide,
    [transform] (any strategy, axis 0) writes into the array it was given
    and returns it; the shape is unchanged; in column [j] every missing cell
    becomes [statistics[j]], every finite cell is kept, and an infinite cell
    becomes the largest finite float of its sign. *)
Theorem transform_fills_missing_and_clamps_infinite
    (k : strategy_kind) (l : loc) (f : list cell) (a : ndarray) (w : world) :
  heap w !! l = Some a -> well_shaped a = true -> length f = shape1 a ->
  strategy_transform (mk_strategy k 0) (Some l) (Some f) w
    = (Ok (Some l), mk_world (<[l := imputed f a]> (heap w)) (stdout w))
  /\ shape1 (imputed f a) = shape1 a
  /\ shape0 (imputed f a) = shape0 a
  /\ well_shaped (imputed f a) = true
  /\ forall i j x v,
       cell_at a i j = Some x -> f !! j = Some v ->
       cell_at (imputed f a) i j
       = Some match x with
              | NaN => v
              | PosInf => Fin DBL_MAX
              | NegInf => Fin (- DBL_MAX)%Qc
              | Fin _ => x
              end.
Proof.
  intros Hw Hwf Hlen. repeat split.
  - rewrite strategy_transform_axis0 by reflexivity.
    now apply transform_axis0_ok.
  - unfold shape0, imputed. cbn [rows]. apply length_map.
  - now apply imputed_well_shaped.
  - intros i j x v Hx Hv. rewrite cell_at_imputed, Hx. cbn. rewrite Hv. cbn.
    now destruct x.
Qed.

Lemma transform_fills_missing_and_clamps_infinite_witness :
  let a := mk_ndarray 2 [[F 1; NaN]; [NegInf; F 4]] in
  let f := [F 7; F 8] in
  let w := world_with a in
  strategy_transform (mk_strategy Median 0) (Some 0%nat) (Some f) w
    = (Ok (Some 0%nat), mk_world (<[0%nat := imputed f a]> (heap w)) (stdout w))
  /\ cell_at (imputed f a) 0 1 = Some (F 8)
  /\ cell_at (imputed f a) 1 0 = Some (Fin (- DBL_MAX)%Qc).
Proof.
  intros a f w.
  destruct (transform_fills_missing_and_clamps_infinite Median 0%nat f a w)
    as (Hrun & _ & _ & _ & Hcells); [vm_compute; reflexivity ..|].
  split; [exact Hrun|]. split.
  - apply (Hcells 0%nat 1%nat NaN (F 8)); vm_compute; reflexivity.
  - apply (Hcells 1%nat 0%nat NegInf (F 7)); vm_compute; reflexivity.
Defined.

(** C3 as stated fails: a cell holding an infinity is not a missing
    marker, yet [transform] overwrites it. *)
Lemma transform_changes_infinite_cell :
  let a := mk_ndarray 1 [[PosInf]] in
  let r := Mean_transform (mk_strategy Mean 0) (Some 0%nat) (Some [F 0])
             (world_with a) in
  cell_at a 0 0 = Some PosInf
  /\ isnan PosInf = false
  /\ r.1 = Ok (Some 0%nat)
  /\ (heap r.2 !! 0%nat) ≫= (fun a' => cell_at a' 0 0) = Some (Fin DBL_MAX)
  /\ Fin DBL_MAX <> PosInf.
Proof. cbv zeta. by_evaluation. Qed.

(** ** Mean *)




(** ** Median *)




(** ** Mode *)

(** C1 (defect in the code): at the matrix [[1, 9], [2, 8], [2, 7]] the
    column-wise modes are [2, 7], but [Mode.fit] with axis 0 returns
    [1, 9]: [np.unique(..., axis=0)] counts whole rows, all three rows are
    distinct, and the first of the sorted rows is taken.  At
    [[1, nan], [1, nan], [2, 5]] the returned vector carries the marker in
    the second column, whose only non-missing value is 5. *)
Theorem Mode_fit_takes_a_row_not_the_column_modes :
  let a := mk_ndarray 2 [[F 1; F 9]; [F 2; F 8]; [F 2; F 7]] in
  let b := mk_ndarray 2 [[F 1; NaN]; [F 1; NaN]; [F 2; F 5]] in
  Mode_fit (mk_strategy Mode 0) 0%nat (world_with a)
    = (Ok (Some [F 1; F 9]), world_with a)
  /\ map (fun j => column_mode (remove_nan (column a j))) (seq 0 (shape1 a))
     = [F 2; F 7]
  /\ Mode_fit (mk_strategy Mode 0) 0%nat (world_with b)
     = (Ok (Some [F 1; NaN]), world_with b)
  /\ map (fun j => column_mode (remove_nan (column b j))) (seq 0 (shape1 b))
     = [F 1; F 5].
Proof. cbv zeta. repeat split; vm_compute; reflexivity. Qed.

(** ** Columns without any value *)

Lemma remove_nan_all_nan (col : list cell) :
  Forall (fun x => isnan x = true) col -> remove_nan col = [].
Proof.
  intros H. unfold remove_nan. induction H as [|x col Hx _ IH]; [reflexivity|].
  rewrite filter_cons_False by (simpl; congruence). exact IH.
Qed.

(** C2, as amended: no strategy signals an error for a column that holds
    only missing markers.  With axis 0 and a matrix of at least one row,
    [fit] returns normally for mean, median and mode alike, changes nothing,
    and the statistic of such a column is the missing marker itself. *)
Theorem fit_all_missing_column_yields_marker
    (k : strategy_kind) (l : loc) (w : world) (a : ndarray) (j : nat) :
  heap w !! l = Some a -> well_shaped a = true -> rows a <> [] ->
  (j < shape1 a)%nat -> Forall (fun x => isnan x = true) (column a j) ->
  exists f, strategy_fit (mk_strategy k 0) l w = (Ok (Some f), w)
            /\ f !! j = Some NaN.
Proof.
  intros Hw Hwf Hne Hj Hcol. destruct k; unfold strategy_fit; cbn [kind].
  - exists (nanmean a). split; [now apply Mean_fit_axis0|].
    unfold nanmean. rewrite lookup_map_seq by exact Hj.
    now rewrite nanmean1d_all_nan.
  - exists (nanmedian a). split; [now apply Median_fit_axis0|].
    unfold nanmedian. rewrite lookup_map_seq by exact Hj.
    now rewrite nanmedian1d_all_nan.
  - destruct (Mode_fit_axis0 (mk_strategy Mode 0) l w a eq_refl Hw)
      as [[Hnil _]|(r & Hr & Hfit)]; [contradiction|].
    exists r. split; [exact Hfit|].
    apply well_shaped_Forall in Hwf. rewrite Forall_forall in Hwf.
    assert (Hlt : (j < length r)%nat) by (rewrite (Hwf r Hr); exact Hj).
    destruct (lookup_lt_is_Some_2 r j Hlt) as [x Hx]. rewrite Hx. f_equal.
    rewrite Forall_forall in Hcol.
    assert (Hin : x ∈ column a j).
    { unfold column. apply list_elem_of_fmap. exists r. split; [|exact Hr].
      unfold getitem. now rewrite Hx. }
    apply Hcol in Hin. now destruct x.
Qed.

Lemma fit_all_missing_column_yields_marker_witness :
  let a := mk_ndarray 2 [[F 1; NaN]; [F 1; NaN]; [F 2; NaN]] in
  exists f, strategy_fit (mk_strategy Mode 0) 0%nat (world_with a)
              = (Ok (Some f), world_with a)
            /\ f !! 1%nat = Some NaN.
Proof.
  intros a.
  apply (fit_all_missing_column_yields_marker Mode 0%nat (world_with a) a 1).
  - vm_compute; reflexivity.
  - vm_compute; reflexivity.
  - discriminate.
  - cbn. lia.
  - vm_compute. repeat constructor.
Defined.

(** C2 as stated fails: on a matrix whose only column is all missing, every
    strategy returns a vector instead of raising. *)
Lemma fit_all_missing_column_does_not_raise :
  let w := world_with (mk_ndarray 1 [[NaN]; [NaN]]) in
  (Mean_fit (mk_strategy Mean 0) 0%nat w).1 = Ok (Some [NaN])
  /\ (Median_fit (mk_strategy Median 0) 0%nat w).1 = Ok (Some [NaN])
  /\ (Mode_fit (mk_strategy Mode 0) 0%nat w).1 = Ok (Some [NaN]).
Proof. cbv zeta. by_evaluation. Qed.

(** ** Other axes *)

(** C5, as amended: with an axis other than 0 nothing is raised.  [fit]
    of every strategy prints a "not implemented" line and returns [None];
    [transform] returns [None], after printing such a line for the mean
    strategy and silently for median and mode; no array is touched. *)
Theorem other_axis_returns_None
    (k : strategy_kind) (ax : Z) (l : loc) (d : option loc)
    (f : option (list cell)) (w : world) :
  ax <> 0 ->
  strategy_fit (mk_strategy k ax) l w
    = (Ok None, mk_world (heap w) (stdout w ++ [not_implemented "fit" ax]))
  /\ strategy_transform (mk_strategy k ax) d f w
     = (Ok None,
        mk_world (heap w)
          (stdout w ++ match k with
                       | Mean => [not_implemented "transform" ax]
                       | _ => []
                       end)).
Proof.
  intros Hax. apply Z.eqb_neq in Hax.
  unfold strategy_fit, strategy_transform, Mean_fit, Median_fit, Mode_fit,
    Mean_transform, Median_transform, Mode_transform.
  destruct k; cbn [kind axis]; rewrite Hax; split; try reflexivity;
    unfold ret; now rewrite app_nil_r, world_eta.
Qed.

Lemma other_axis_returns_None_witness :
  let w := world_with (mk_ndarray 1 [[NaN]; [F 2]]) in
  strategy_fit (mk_strategy Mean 1) 0%nat w
    = (Ok None, mk_world (heap w) ["`fit` method for axis=1 is not implemented."])
  /\ strategy_transform (mk_strategy Mean 1) (Some 0%nat) None w
     = (Ok None,
        mk_world (heap w) ["`transform` method for axis=1 is not implemented."]).
Proof.
  intros w.
  apply (other_axis_returns_None Mean 1 0%nat (Some 0%nat) None w). lia.
Defined.

(** C5 as stated fails: with axis 1 both methods return normally. *)
Lemma other_axis_does_not_raise :
  let w := world_with (mk_ndarray 1 [[NaN]; [F 2]]) in
  (Mean_fit (mk_strategy Mean 1) 0%nat w).1 = Ok None
  /\ (Mean_transform (mk_strategy Mean 1) (Some 0%nat) None w).1 = Ok None
  /\ (Median_transform (mk_strategy Median 1) (Some 0%nat) None w)
     = (Ok None, w).
Proof. cbv zeta. repeat split; vm_compute; reflexivity. Qed.

(** ** Transform before fit *)

Lemma StrategyPattern_init_unfitted (name : string) (ax : Z) (i : Imputer) :
  StrategyPattern.Imputer_init name ax = Ok i ->
  _data i = None /\ _fitted_data i = None /\ axis (_strategy i) = ax.
Proof.
  unfold StrategyPattern.Imputer_init.
  repeat (destruct (String.eqb name _)); intros [= <-]; auto.
Qed.

(** C6, as amended: an imputer on which [fit] was never called has
    [_data = None].  With axis 0 its [transform] raises the AttributeError
    of reading [None.shape] (there is no dedicated error class); with any
    other axis it returns [None] and raises nothing.  In both cases no
    array is touched. *)
Theorem transform_before_fit
    (s : ImputerStrategy) (f : option (list cell)) (w : world) :
  let r := Imputer_transform (mk_Imputer s None f, w) in
  r.1 = (if axis s =? 0 then Raise AttributeError else Ok None)
  /\ heap r.2.2 = heap w.
Proof.
  unfold Imputer_transform, bind, get_self, lift, strategy_transform,
    Mean_transform, Median_transform, Mode_transform.
  cbn [fst snd _strategy _data _fitted_data].
  destruct (kind s), (axis s =? 0); split; reflexivity.
Qed.

(** C6 as stated fails: an unfitted imputer built for axis 1 returns
    [None] from [transform]; no error is raised. *)
Lemma transform_before_fit_axis1_no_error :
  (Imputer_transform (new_imputer Median 1, world_with (mk_ndarray 1 [[F 1]])))
  = (Ok None, (new_imputer Median 1, world_with (mk_ndarray 1 [[F 1]])))
  /\ StrategyPattern.Imputer_init "median" 1 = Ok (new_imputer Median 1).
Proof. split; vm_compute; reflexivity. Qed.

(** ** A fit followed by transforms *)

Lemma strategy_fit_axis0_inv (s : ImputerStrategy) (l : loc) (w w' : world)
    (a : ndarray) (f : list cell) :
  axis s = 0 -> heap w !! l = Some a -> well_shaped a = true ->
  strategy_fit s l w = (Ok (Some f), w') ->
  length f = shape1 a /\ w' = w.
Proof.
  intros Hax Hw Hwf. unfold strategy_fit. destruct (kind s).
  - rewrite (Mean_fit_axis0 s l w a Hax Hw). intros [= <- <-].
    unfold nanmean. now rewrite length_map, length_seq.
  - rewrite (Median_fit_axis0 s l w a Hax Hw). intros [= <- <-].
    unfold nanmedian. now rewrite length_map, length_seq.
  - destruct (Mode_fit_axis0 s l w a Hax Hw) as [[_ E]|(r & Hr & E)];
      rewrite E; [discriminate|]. intros [= <- <-].
    apply well_shaped_Forall in Hwf. rewrite Forall_forall in Hwf.
    split; [now apply Hwf | reflexivity].
Qed.

Lemma strategy_fit_axis0_ok (k : strategy_kind) (l : loc) (w : world)
    (a : ndarray) :
  heap w !! l = Some a -> (k = Mode -> rows a <> []) ->
  exists f, strategy_fit (mk_strategy k 0) l w = (Ok (Some f), w).
Proof.
  intros Hw Hne. unfold strategy_fit. destruct k; cbn [kind].
  - exists (nanmean a). apply Mean_fit_axis0; [reflexivity | exact Hw].
  - exists (nanmedian a). apply Median_fit_axis0; [reflexivity | exact Hw].
  - destruct (Mode_fit_axis0 (mk_strategy Mode 0) l w a eq_refl Hw)
      as [[Hnil _]|(r & _ & E)]; [now apply Hne in Hnil|].
    now exists r.
Qed.

Lemma Imputer_transform_ok (i : Imputer) (w : world) (l : loc)
    (f : list cell) (a : ndarray) :
  _data i = Some l -> _fitted_data i = Some f -> axis (_strategy i) = 0 ->
  heap w !! l = Some a -> well_shaped a = true -> length f = shape1 a ->
  Imputer_transform (i, w)
  = (Ok (Some l), (i, mk_world (<[l := imputed f a]> (heap w)) (stdout w))).
Proof.
  intros Hd Hf Hax Hw Hwf Hlen.
  unfold Imputer_transform, bind, get_self, lift. cbn [fst snd].
  rewrite Hd, Hf, strategy_transform_axis0 by exact Hax.
  now rewrite (transform_axis0_ok l f a w Hw Hwf Hlen).
Qed.

(** C7, as amended: with axis 0, for every strategy and every well-shaped
    matrix all of whose cells are finite (and, for the mode strategy, with
    at least one row), [fit] followed by [transform] returns the imputer's
    own float copy, whose content equals the input matrix; the caller's
    matrix is unchanged too. *)
Theorem fit_transform_identity_on_finite_data
    (k : strategy_kind) (i0 : Imputer) (w : world) (data : loc) (a : ndarray) :
  _strategy i0 = mk_strategy k 0 -> heap w !! data = Some a ->
  well_shaped a = true -> all_finite a = true ->
  (k = Mode -> rows a <> []) ->
  let r := fit_transform data (i0, w) in
  r.1 = Ok (Some (fresh_loc w))
  /\ returned_array r = Some a
  /\ heap r.2.2 !! data = Some a.
Proof.
  intros Hs Hw Hwf Hfin Hne.
  destruct (strategy_fit_axis0_ok k (fresh_loc w) (after_alloc w a) a
              (after_alloc_new w a) Hne) as [f Hfit].
  destruct (strategy_fit_axis0_inv (mk_strategy k 0) _ _ _ a f eq_refl
              (after_alloc_new w a) Hwf Hfit) as [Hlen _].
  unfold fit_transform, bind.
  rewrite (Imputer_fit_unfold i0 w data a Hw), Hs, Hfit.
  rewrite (Imputer_transform_ok
             (mk_Imputer (mk_strategy k 0) (Some (fresh_loc w)) (Some f))
             _ (fresh_loc w) f a eq_refl eq_refl eq_refl
             (after_alloc_new w a) Hwf Hlen).
  rewrite (imputed_finite f a Hwf Hfin Hlen).
  cbn [fst snd returned_array heap].
  split; [reflexivity|]. split; [apply lookup_insert_eq|].
  assert (Hd : is_Some (heap w !! data)) by (rewrite Hw; eauto).
  rewrite lookup_insert_ne.
  - now rewrite after_alloc_old.
  - intros E. rewrite <- E, fresh_loc_fresh in Hw. discriminate.
Qed.

Lemma fit_transform_identity_on_finite_data_witness :
  let a := mk_ndarray 2 [[F 1; F 9]; [F 2; F 8]; [F 2; F 7]] in
  let r := fit_transform 0%nat (new_imputer Mode 0, world_with a) in
  r.1 = Ok (Some (fresh_loc (world_with a)))
  /\ returned_array r = Some a
  /\ heap r.2.2 !! 0%nat = Some a.
Proof.
  intros a.
  apply (fit_transform_identity_on_finite_data Mode (new_imputer Mode 0)
           (world_with a) 0%nat a).
  - reflexivity.
  - vm_compute; reflexivity.
  - vm_compute; reflexivity.
  - vm_compute; reflexivity.
  - discriminate.
Defined.

(** C7 as stated fails twice: an infinite cell is not a missing cell, yet
    it does not survive [fit] then [transform]; and on a matrix without
    rows the mode strategy raises in [fit]. *)
Lemma fit_transform_not_identity :
  let a := mk_ndarray 1 [[PosInf]; [F 1]] in
  let e := mk_ndarray 1 [] in
  returned_array (fit_transform 0%nat (new_imputer Mean 0, world_with a))
    = Some (mk_ndarray 1 [[Fin DBL_MAX]; [F 1]])
  /\ forallb (forallb (fun x => negb (isnan x))) (rows a) = true
  /\ mk_ndarray 1 [[Fin DBL_MAX]; [F 1]] <> a
  /\ (fit_transform 0%nat (new_imputer Mode 0, world_with e)).1
     = Raise ValueError.
Proof. cbv zeta. by_evaluation. Qed.

(** C9, as amended: after a successful [fit] with axis 0 whose fitted
    statistics contain no infinity, two successive [transform] calls return
    the same array object with the same content: the second call changes
    nothing at all. *)
Theorem transform_twice_same_output
    (i0 i1 : Imputer) (w w1 : world) (data : loc) (a : ndarray)
    (f : list cell) :
  axis (_strategy i0) = 0 -> heap w !! data = Some a ->
  well_shaped a = true ->
  Imputer_fit data (i0, w) = (Ok tt, (i1, w1)) ->
  _fitted_data i1 = Some f ->
  forallb (fun v => negb (isinf v)) f = true ->
  let r1 := Imputer_transform (i1, w1) in
  let r2 := Imputer_transform r1.2 in
  r1.1 = Ok (Some (fresh_loc w))
  /\ returned_array r1 = Some (imputed f a)
  /\ r2 = r1.
Proof.
  intros Hax Hw Hwf Hfit Hf Hinf.
  rewrite (Imputer_fit_unfold i0 w data a Hw) in Hfit.
  destruct (strategy_fit (_strategy i0) (fresh_loc w) (after_alloc w a))
    as [[f'|e] w2] eqn:Hsf; [|discriminate].
  injection Hfit as <- <-. cbn [_fitted_data] in Hf. subst f'.
  destruct (strategy_fit_axis0_inv _ _ _ _ a f Hax (after_alloc_new w a)
              Hwf Hsf) as [Hlen ->].
  cbv zeta.
  set (i1 := mk_Imputer (_strategy i0) (Some (fresh_loc w)) (Some f)).
  rewrite (Imputer_transform_ok i1 _ (fresh_loc w) f a eq_refl eq_refl Hax
             (after_alloc_new w a) Hwf Hlen).
  cbn [fst snd returned_array heap].
  split; [reflexivity|]. split; [apply lookup_insert_eq|].
  rewrite (Imputer_transform_ok i1 _ (fresh_loc w) f (imputed f a)
             eq_refl eq_refl Hax).
  - cbn [heap stdout]. now rewrite imputed_idem, insert_insert_eq.
  - cbn [heap]. apply lookup_insert_eq.
  - now apply imputed_well_shaped.
  - exact Hlen.
Qed.

Lemma transform_twice_same_output_witness :
  let a := column_array demo_age in
  let s := (Imputer_fit 0%nat (new_imputer Mean 0, world_with a)).2 in
  let f := [Fin (Q2Qc (5457487048445497 # 140737488355328))] in
  let r1 := Imputer_transform s in
  let r2 := Imputer_transform r1.2 in
  r1.1 = Ok (Some (fresh_loc (world_with a)))
  /\ returned_array r1 = Some (imputed f a)
  /\ r2 = r1.
Proof.
  intros a s f.
  apply (transform_twice_same_output (new_imputer Mean 0) s.1
           (world_with a) s.2 0%nat a f).
  - reflexivity.
  - vm_compute; reflexivity.
  - vm_compute; reflexivity.
  - vm_compute; reflexivity.
  - by_evaluation.
  - vm_compute; reflexivity.
Defined.

(** C9 as stated fails: with a column [inf, nan] the fitted mean is
    infinite; the first [transform] writes it into the missing cell and the
    second one replaces it by the largest finite float, so the two outputs
    differ. *)
Lemma transform_twice_differs :
  let a := mk_ndarray 1 [[PosInf]; [NaN]] in
  let s := (Imputer_fit 0%nat (new_imputer Mean 0, world_with a)) in
  let r1 := Imputer_transform s.2 in
  let r2 := Imputer_transform r1.2 in
  s.1 = Ok tt
  /\ returned_array r1 = Some (mk_ndarray 1 [[Fin DBL_MAX]; [PosInf]])
  /\ returned_array r2 = Some (mk_ndarray 1 [[Fin DBL_MAX]; [Fin DBL_MAX]])
  /\ returned_array r1 <> returned_array r2.
Proof. cbv zeta. by_evaluation. Qed.

(** ** The caller's matrix *)

(** C10: [fit] works on a copy in a new array object, and every later
    [transform] writes to that copy only: after [fit] and any number of
    [transform] calls, whatever their outcome, the caller's matrix is what it
    was, and so is every other array that existed before. *)
Theorem caller_matrix_untouched
    (i : Imputer) (w : world) (data : loc) (a : ndarray) (n : nat) :
  heap w !! data = Some a ->
  let r := (Imputer_fit data ;;; transform_times n) (i, w) in
  heap r.2.2 !! data = Some a
  /\ forall l0, is_Some (heap w !! l0) -> heap r.2.2 !! l0 = heap w !! l0.
Proof.
  intros Hw.
  assert (Hall : forall l0, is_Some (heap w !! l0) ->
            heap ((Imputer_fit data ;;; transform_times n) (i, w)).2.2 !! l0
            = heap w !! l0).
  { intros l0 Hl0. unfold bind.
    destruct (Imputer_fit_frame i w data a Hw) as [Hdata Hframe].
    specialize (Hframe l0 Hl0).
    destruct (Imputer_fit data (i, w)) as [[[]|e] [i1 w1]];
      cbn [fst snd] in *; [|exact Hframe].
    rewrite transform_times_frame; [exact Hframe|].
    rewrite Hdata. intros [= E].
    destruct Hl0 as [b Hb]. rewrite <- E, fresh_loc_fresh in Hb. discriminate. }
  pose proof (Hall data (ex_intro _ a Hw)) as Hd.
  cbv zeta. split; [now rewrite Hd | exact Hall].
Qed.

Lemma caller_matrix_untouched_witness :
  let a := mk_ndarray 2 [[F 1; NaN]; [NaN; F 4]; [F 3; PosInf]] in
  let w := world_with a in
  heap w !! 0%nat = Some a
  /\ (let r := (Imputer_fit 0%nat ;;; transform_times 2) (new_imputer Mean 0, w) in
      heap r.2.2 !! 0%nat = Some a
      /\ forall l0, is_Some (heap w !! l0) -> heap r.2.2 !! l0 = heap w !! l0).
Proof.
  intros a w.
  assert (H : heap w !! 0%nat = Some a) by (vm_compute; reflexivity).
  split; [exact H|].
  exact (caller_matrix_untouched (new_imputer Mean 0) w 0%nat a 2 H).
Defined.

(** * Further properties of the two modules *)

(** ** Construction *)

(** [create_imputer_strategy] succeeds on exactly the three strategy names;
    any other string, the literal "unknown" included, ends in the
    RuntimeError "Unknown strategy".  A strategy that is created carries the
    requested axis. *)
Theorem create_imputer_strategy_names (s : string) (ax : Z) :
  ((exists st, Factory.create_imputer_strategy s ax = Ok st)
   <-> (s = "mean" \/ s = "median" \/ s = "mode"))
  /\ match Factory.create_imputer_strategy s ax with
     | Ok st => axis st = ax
     | Raise e => e = RuntimeError "Unknown strategy"
     end.
Proof.
  unfold Factory.create_imputer_strategy, Factory.Strategy_of_string.
  destruct (String.eqb_spec s "mean") as [->|H1].
  { split; [split; eauto | reflexivity]. }
  destruct (String.eqb_spec s "median") as [->|H2].
  { split; [split; eauto | reflexivity]. }
  destruct (String.eqb_spec s "mode") as [->|H3].
  { split; [split; eauto | reflexivity]. }
  assert (E : (if String.eqb s "unknown" then Factory.unknown else Factory.unknown)
              = Factory.unknown) by (now destruct (String.eqb s "unknown")).
  rewrite E. split; [|reflexivity]. split.
  - intros [st Hst]. discriminate.
  - intros [?|[?|?]]; contradiction.
Qed.

(** The two modules build the same imputer: where the factory creates a
    strategy, [Imputer(strategy, axis)] of the strategy module is the
    unfitted imputer around that strategy; where the factory raises, the
    strategy module raises too, naming the rejected string. *)
Theorem constructors_agree (s : string) (ax : Z) :
  match Factory.create_imputer_strategy s ax with
  | Ok st => StrategyPattern.Imputer_init s ax = Ok (Factory.Imputer_init st)
  | Raise _ =>
      StrategyPattern.Imputer_init s ax
      = Raise (RuntimeError ("Unknown strategy: " ++ s ++ "."))
  end.
Proof.
  unfold Factory.create_imputer_strategy, Factory.Strategy_of_string,
    StrategyPattern.Imputer_init, Factory.Imputer_init.
  destruct (String.eqb s "mean"); [reflexivity|].
  destruct (String.eqb s "median"); [reflexivity|].
  destruct (String.eqb s "mode"); [reflexivity|].
  now destruct (String.eqb s "unknown").
Qed.

(** ** [fit] at axis 0 *)

(** With axis 0, [fit] of every strategy only reads: whatever it returns or
    raises, no array is written and nothing is printed.  It never returns
    [None], and a vector it returns has one entry per column. *)
Theorem fit_axis0_reads_only
    (k : strategy_kind) (l : loc) (w : world) (a : ndarray) :
  heap w !! l = Some a -> well_shaped a = true ->
  let r := strategy_fit (mk_strategy k 0) l w in
  r.2 = w
  /\ r.1 <> Ok None
  /\ forall f, r.1 = Ok (Some f) -> length f = shape1 a.
Proof.
  intros Hw Hwf. cbv zeta.
  assert (Hcases : (exists f, strategy_fit (mk_strategy k 0) l w = (Ok (Some f), w))
                   \/ strategy_fit (mk_strategy k 0) l w = (Raise ValueError, w)).
  { unfold strategy_fit. destruct k; cbn [kind].
    - left. eexists. apply Mean_fit_axis0; [reflexivity | exact Hw].
    - left. eexists. apply Median_fit_axis0; [reflexivity | exact Hw].
    - destruct (Mode_fit_axis0 (mk_strategy Mode 0) l w a eq_refl Hw)
        as [[_ E]|(r & _ & E)]; [now right | left; now exists r]. }
  destruct Hcases as [[f Hf]|Hf].
  - rewrite Hf. cbn [fst snd]. split; [reflexivity|]. split; [discriminate|].
    intros f' [= <-].
    now destruct (strategy_fit_axis0_inv (mk_strategy k 0) l w w a f eq_refl
                    Hw Hwf Hf).
  - rewrite Hf. cbn [fst snd]. split; [reflexivity|].
    split; [discriminate|]. intros f' [=].
Qed.

Lemma fit_axis0_reads_only_witness :
  let a := mk_ndarray 2 [[F 1; NaN]; [F 3; F 4]] in
  let w := world_with a in
  let r := strategy_fit (mk_strategy Median 0) 0%nat w in
  heap w !! 0%nat = Some a
  /\ r.2 = w
  /\ r.1 <> Ok None
  /\ forall f, r.1 = Ok (Some f) -> length f = shape1 a.
Proof.
  intros a w.
  assert (H : heap w !! 0%nat = Some a) by (vm_compute; reflexivity).
  split; [exact H|].
  exact (fit_axis0_reads_only Median 0%nat w a H eq_refl).
Defined.

(** ** Matrices without rows *)

Lemma column_no_rows (a : ndarray) (j : nat) : rows a = [] -> column a j = [].
Proof. unfold column. now intros ->. Qed.

Lemma Mode_fit_no_rows (l : loc) (w : world) (a : ndarray) :
  heap w !! l = Some a -> rows a = [] ->
  Mode_fit (mk_strategy Mode 0) l w = (Raise ValueError, w).
Proof.
  intros Hw Hnil.
  destruct (Mode_fit_axis0 (mk_strategy Mode 0) l w a eq_refl Hw)
    as [[_ E]|(r & Hr & _)]; [exact E|].
  rewrite Hnil in Hr. now apply elem_of_nil in Hr.
Qed.

(** On a matrix without rows, the mean and the median strategy fit the
    missing marker for every column and raise nothing, while the mode
    strategy raises ValueError (the arg-max of an empty count vector). *)
Theorem fit_without_rows (l : loc) (w : world) (a : ndarray) :
  heap w !! l = Some a -> rows a = [] ->
  Mean_fit (mk_strategy Mean 0) l w = (Ok (Some (replicate (shape1 a) NaN)), w)
  /\ Median_fit (mk_strategy Median 0) l w
     = (Ok (Some (replicate (shape1 a) NaN)), w)
  /\ Mode_fit (mk_strategy Mode 0) l w = (Raise ValueError, w).
Proof.
  intros Hw Hnil.
  assert (Hrep : forall g : nat -> cell,
            (forall j, g j = NaN) -> map g (seq 0 (shape1 a)) = replicate (shape1 a) NaN).
  { intros g Hg. generalize 0%nat. induction (shape1 a) as [|n IH]; intros b;
      [reflexivity|]. cbn [seq map replicate]. now rewrite Hg, IH. }
  split; [|split].
  - rewrite (Mean_fit_axis0 (mk_strategy Mean 0) l w a eq_refl Hw). unfold nanmean.
    rewrite Hrep; [reflexivity|]. intros j. now rewrite column_no_rows.
  - rewrite (Median_fit_axis0 (mk_strategy Median 0) l w a eq_refl Hw).
    unfold nanmedian.
    rewrite Hrep; [reflexivity|]. intros j. now rewrite column_no_rows.
  - exact (Mode_fit_no_rows l w a Hw Hnil).
Qed.

Lemma fit_without_rows_witness :
  let a := mk_ndarray 3 [] in
  let w := world_with a in
  Mean_fit (mk_strategy Mean 0) 0%nat w = (Ok (Some [NaN; NaN; NaN]), w)
  /\ Median_fit (mk_strategy Median 0) 0%nat w = (Ok (Some [NaN; NaN; NaN]), w)
  /\ Mode_fit (mk_strategy Mode 0) 0%nat w = (Raise ValueError, w).
Proof.
  intros a w. apply (fit_without_rows 0%nat w a); vm_compute; reflexivity.
Defined.

(** ** Statistics of the wrong length *)

Lemma for_range_app (body : nat -> M world unit) (l1 l2 : list nat) (w : world) :
  for_range body (l1 ++ l2) w
  = match for_range body l1 w with
    | (Ok _, w1) => for_range body l2 w1
    | (Raise e, w1) => (Raise e, w1)
    end.
Proof.
  revert w. induction l1 as [|i l1 IH]; intros w; [reflexivity|].
  cbn [app for_range]. unfold bind.
  destruct (body i w) as [[[]|e] w1]; [apply IH | reflexivity].
Qed.

Lemma fill_column_no_entry (l : loc) (f : list cell) (i : nat) (a : ndarray)
    (w : world) :
  heap w !! l = Some a -> f !! i = None ->
  fill_column l (Some f) i w = (Raise IndexError, w).
Proof.
  intros Ha Hv. unfold fill_column, bind, deref, subscript, raise.
  now rewrite Ha, Hv.
Qed.

Lemma lookup_row_upto (k : nat) (f r : list cell) (j : nat) :
  (k <= length r)%nat -> (k <= length f)%nat ->
  row_upto k f r !! j
  = if decide (j < k)%nat
    then x ← r !! j; v ← f !! j; Some (nan_to_num1 v x)
    else r !! j.
Proof.
  intros Hr Hf. unfold row_upto, impute_row.
  assert (Hlen : length (zip_with (fun x v => nan_to_num1 v x) (take k r) (take k f)) = k).
  { rewrite length_zip_with, !length_take. lia. }
  destruct (decide (j < k)%nat) as [Hlt|Hge].
  - rewrite lookup_app_l by lia. rewrite lookup_zip_with.
    now rewrite !lookup_take_lt by exact Hlt.
  - rewrite lookup_app_r by lia. rewrite Hlen, lookup_drop. f_equal. lia.
Qed.

Lemma transform_axis0_general (l : loc) (f : list cell) (a : ndarray) (w : world) :
  heap w !! l = Some a -> well_shaped a = true ->
  transform_axis0 (Some l) (Some f) w
  = (if Nat.leb (shape1 a) (length f) then Ok (Some l) else Raise IndexError,
     mk_world (<[l := partially_imputed f a]> (heap w)) (stdout w)).
Proof.
  intros Hw Hwf. apply well_shaped_Forall in Hwf.
  unfold transform_axis0, bind, deref, partially_imputed. rewrite Hw.
  destruct a as [n rs]. cbn [shape1 rows] in *.
  assert (Hw0 : heap w !! l = Some (mk_ndarray n (map (row_upto 0 f) rs))).
  { rewrite Hw. do 2 f_equal. symmetry. apply map_id. }
  destruct (Nat.leb_spec n (length f)) as [Hle|Hlt].
  - rewrite (for_range_fill l f n rs n 0 w Hw0); [| lia |].
    + now rewrite Nat.min_l by lia.
    + eapply Forall_impl; [exact Hwf|]. intros r Hr. simpl in Hr. lia.
  - assert (Hseq : seq 0 n
                   = seq 0 (length f) ++ seq (length f) (S (n - S (length f)))).
    { change (length f) with (0 + length f)%nat at 2.
      rewrite <- seq_app. f_equal. lia. }
    rewrite Hseq, for_range_app.
    rewrite (for_range_fill l f n rs (length f) 0 w Hw0); [| lia |].
    + cbn [seq for_range Nat.add]. unfold bind.
      rewrite (fill_column_no_entry l f (length f)
                 (mk_ndarray n (map (row_upto (length f) f) rs))).
      * now rewrite Nat.min_r by lia.
      * cbn [heap]. apply lookup_insert_eq.
      * apply lookup_ge_None_2. lia.
    + eapply Forall_impl; [exact Hwf|]. intros r Hr. simpl in Hr. lia.
Qed.

Lemma cell_at_partially_imputed (f : list cell) (a : ndarray) (i j : nat) (x : cell) :
  well_shaped a = true -> cell_at a i j = Some x ->
  cell_at (partially_imputed f a) i j
  = Some match f !! j with
         | Some v => nan_to_num1 v x
         | None => x
         end.
Proof.
  intros Hwf Hx. apply well_shaped_Forall in Hwf. rewrite Forall_forall in Hwf.
  unfold cell_at, partially_imputed in *. cbn [rows shape1].
  rewrite list_lookup_fmap.
  destruct (rows a !! i) as [r|] eqn:Hr; [|discriminate]. cbn in *.
  assert (Hlen : length r = shape1 a)
    by (apply Hwf; eapply list_elem_of_lookup_2; exact Hr).
  assert (Hj : (j < shape1 a)%nat)
    by (rewrite <- Hlen; eapply lookup_lt_Some; exact Hx).
  rewrite lookup_row_upto by lia. rewrite Hx. cbn.
  destruct (decide (j < Nat.min (shape1 a) (length f))%nat) as [Hlt|Hge].
  - destruct (lookup_lt_is_Some_2 f j ltac:(lia)) as [v Hv]. now rewrite Hv.
  - now rewrite lookup_ge_None_2 by lia.
Qed.

(** When the statistic vector has fewer entries than the matrix has columns,
    [transform] (any strategy, axis 0) raises IndexError, but only after it
    has filled the columns for which an entry exists: those columns stay
    modified in the array, the remaining ones are as they were. *)
Theorem transform_short_statistics
    (k : strategy_kind) (l : loc) (f : list cell) (a : ndarray) (w : world) :
  heap w !! l = Some a -> well_shaped a = true ->
  (length f < shape1 a)%nat ->
  strategy_transform (mk_strategy k 0) (Some l) (Some f) w
    = (Raise IndexError,
       mk_world (<[l := partially_imputed f a]> (heap w)) (stdout w))
  /\ forall i j x,
       cell_at a i j = Some x ->
       cell_at (partially_imputed f a) i j
       = Some match f !! j with
              | Some v => nan_to_num1 v x
              | None => x
              end.
Proof.
  intros Hw Hwf Hlt. split.
  - rewrite strategy_transform_axis0 by reflexivity.
    rewrite (transform_axis0_general l f a w Hw Hwf).
    destruct (Nat.leb_spec (shape1 a) (length f)); [lia | reflexivity].
  - intros i j x Hx. now apply cell_at_partially_imputed.
Qed.

Lemma transform_short_statistics_witness :
  let a := mk_ndarray 2 [[NaN; NaN]; [F 3; F 4]] in
  let w := world_with a in
  strategy_transform (mk_strategy Mean 0) (Some 0%nat) (Some [F 7]) w
    = (Raise IndexError,
       mk_world (<[0%nat := partially_imputed [F 7] a]> (heap w)) (stdout w))
  /\ cell_at (partially_imputed [F 7] a) 0 0 = Some (F 7)
  /\ cell_at (partially_imputed [F 7] a) 0 1 = Some NaN.
Proof.
  intros a w.
  destruct (transform_short_statistics Mean 0%nat [F 7] a w) as [Hrun Hcells].
  - vm_compute; reflexivity.
  - reflexivity.
  - cbn. lia.
  - split; [exact Hrun|]. split.
    + apply (Hcells 0%nat 0%nat NaN). reflexivity.
    + apply (Hcells 0%nat 1%nat NaN). reflexivity.
Defined.

(** When the statistic vector has more entries than the matrix has columns,
    [transform] (any strategy, axis 0) succeeds and the surplus entries play
    no part: the outcome is that of the vector cut to the width of the
    matrix. *)
Theorem transform_long_statistics
    (k : strategy_kind) (l : loc) (f : list cell) (a : ndarray) (w : world) :
  heap w !! l = Some a -> well_shaped a = true ->
  (shape1 a <= length f)%nat ->
  strategy_transform (mk_strategy k 0) (Some l) (Some f) w
    = (Ok (Some l),
       mk_world (<[l := imputed (take (shape1 a) f) a]> (heap w)) (stdout w)).
Proof.
  intros Hw Hwf Hle.
  rewrite strategy_transform_axis0 by reflexivity.
  rewrite (transform_axis0_general l f a w Hw Hwf).
  destruct (Nat.leb_spec (shape1 a) (length f)); [|lia].
  do 3 f_equal. unfold partially_imputed, imputed. f_equal.
  rewrite Nat.min_l by lia.
  apply well_shaped_Forall in Hwf.
  apply map_ext_Forall. eapply Forall_impl; [exact Hwf|].
  intros r Hr. simpl in Hr. unfold row_upto.
  rewrite (take_ge r) by lia. rewrite drop_ge by lia. apply app_nil_r.
Qed.

Lemma transform_long_statistics_witness :
  let a := mk_ndarray 1 [[NaN]; [F 3]] in
  let w := world_with a in
  strategy_transform (mk_strategy Mode 0) (Some 0%nat) (Some [F 7; F 8; F 9]) w
    = (Ok (Some 0%nat),
       mk_world (<[0%nat := imputed [F 7] a]> (heap w)) (stdout w)).
Proof.
  intros a w.
  apply (transform_long_statistics Mode 0%nat [F 7; F 8; F 9] a w).
  - vm_compute; reflexivity.
  - reflexivity.
  - cbn. lia.
Defined.

(** ** The shape of the array under [transform] *)

Lemma same_shape_refl (a : ndarray) : same_shape a a.
Proof. now split. Qed.

Lemma same_shape_trans (a b c : ndarray) :
  same_shape a b -> same_shape b c -> same_shape a c.
Proof. intros [H1 H2] [H3 H4]. split; congruence. Qed.

Lemma set_column_same_shape (a : ndarray) (i : nat) (v : cell) :
  same_shape a (set_column a i (nan_to_num (column a i) v)).
Proof.
  rewrite set_column_nan_to_num. split; [reflexivity|]. cbn [rows].
  rewrite map_map. apply map_ext. intros r. unfold step_row.
  apply length_insert.
Qed.

Lemma fill_column_same_shape (l : loc) (f : option (list cell)) (i : nat)
    (w : world) (a : ndarray) :
  heap w !! l = Some a ->
  exists a', heap (fill_column l f i w).2 !! l = Some a' /\ same_shape a a'.
Proof.
  intros Hw. unfold fill_column, bind, deref, subscript, store, ret, raise.
  rewrite Hw.
  destruct f as [f|]; [|exists a; split; [exact Hw | apply same_shape_refl]].
  destruct (f !! i) as [v|];
    [|exists a; split; [exact Hw | apply same_shape_refl]].
  cbn. eexists. split; [apply lookup_insert_eq | apply set_column_same_shape].
Qed.

Lemma for_range_same_shape (l : loc) (f : option (list cell)) (rng : list nat) :
  forall (w : world) (a : ndarray),
    heap w !! l = Some a ->
    exists a', heap (for_range (fill_column l f) rng w).2 !! l = Some a'
               /\ same_shape a a'.
Proof.
  induction rng as [|i rng IH]; intros w a Hw.
  - exists a. split; [exact Hw | apply same_shape_refl].
  - cbn [for_range]. unfold bind.
    destruct (fill_column_same_shape l f i w a Hw) as (a1 & H1 & Hs1).
    destruct (fill_column l f i w) as [[[]|e] w1]; cbn [snd] in *.
    + destruct (IH w1 a1 H1) as (a2 & H2 & Hs2).
      exists a2. split; [exact H2 | eapply same_shape_trans; eassumption].
    + now exists a1.
Qed.

(** Whatever the strategy, the axis, the arguments and the outcome (a
    returned array, [None], or an exception raised half-way through the
    columns), [transform] leaves every array with the shape it had: the same
    number of columns and of rows and the same row lengths. *)
Theorem transform_keeps_shapes
    (s : ImputerStrategy) (d : option loc) (f : option (list cell))
    (w : world) (l0 : loc) (a : ndarray) :
  heap w !! l0 = Some a ->
  exists a', heap (strategy_transform s d f w).2 !! l0 = Some a'
             /\ shape1 a' = shape1 a
             /\ shape0 a' = shape0 a
             /\ map length (rows a') = map length (rows a).
Proof.
  intros Hw.
  assert (H : exists a', heap (strategy_transform s d f w).2 !! l0 = Some a'
                         /\ same_shape a a').
  { destruct (decide (d = Some l0)) as [->|Hne].
    - unfold strategy_transform, Mean_transform, Median_transform,
        Mode_transform, transform_axis0, bind, deref, print, ret.
      destruct (kind s), (axis s =? 0); cbn [snd heap];
        try (exists a; split; [exact Hw | apply same_shape_refl]);
        rewrite Hw;
        destruct (for_range_same_shape l0 f (seq 0 (shape1 a)) w a Hw)
          as (a' & Ha' & Hs);
        destruct (for_range (fill_column l0 f) (seq 0 (shape1 a)) w)
          as [[[]|e] w1]; now exists a'.
    - exists a. rewrite strategy_transform_frame by exact Hne.
      split; [exact Hw | apply same_shape_refl]. }
  destruct H as (a' & Ha' & Hs1 & Hs2). exists a'.
  split; [exact Ha'|]. split; [exact Hs1|]. split; [|exact Hs2].
  unfold shape0. rewrite <- (length_map length (rows a')), Hs2.
  apply length_map.
Qed.

Lemma transform_keeps_shapes_witness :
  let a := mk_ndarray 2 [[NaN; NaN]; [F 3; F 4]] in
  let w := world_with a in
  exists a',
    heap (strategy_transform (mk_strategy Mean 0) (Some 0%nat) (Some [F 7]) w).2
      !! 0%nat = Some a'
    /\ shape1 a' = 2%nat /\ shape0 a' = 2%nat
    /\ map length (rows a') = [2%nat; 2%nat].
Proof.
  intros a w.
  apply (transform_keeps_shapes (mk_strategy Mean 0) (Some 0%nat) (Some [F 7])
           w 0%nat a).
  vm_compute; reflexivity.
Defined.

(** ** A fit that fails *)

Lemma fill_column_None (l : loc) (i : nat) (a : ndarray) (w : world) :
  heap w !! l = Some a -> fill_column l None i w = (Raise TypeError, w).
Proof.
  intros Ha. unfold fill_column, bind, deref, subscript, raise. now rewrite Ha.
Qed.

(** The mode strategy on a matrix without rows: [Imputer.fit] raises
    ValueError after [_data] has been set to the new copy and before
    [_fitted_data] is assigned.  An imputer left in that state, holding data
    but no statistics, raises TypeError from [transform] as soon as the
    matrix has a column ([None] is not subscriptable), and hands back the
    untouched copy when it has none. *)
Theorem failed_fit_then_transform (w : world) (data : loc) (a : ndarray) :
  heap w !! data = Some a -> rows a = [] ->
  let i1 := mk_Imputer (mk_strategy Mode 0) (Some (fresh_loc w)) None in
  Imputer_fit data (new_imputer Mode 0, w)
    = (Raise ValueError, (i1, after_alloc w a))
  /\ Imputer_transform (i1, after_alloc w a)
     = (if Nat.eqb (shape1 a) 0 then Ok (Some (fresh_loc w)) else Raise TypeError,
        (i1, after_alloc w a)).
Proof.
  intros Hw Hnil. cbv zeta. split.
  - rewrite (Imputer_fit_unfold _ w data a Hw).
    unfold new_imputer, Factory.Imputer_init, strategy_fit.
    cbn [_strategy _fitted_data kind].
    now rewrite (Mode_fit_no_rows (fresh_loc w) (after_alloc w a) a
                   (after_alloc_new w a) Hnil).
  - unfold Imputer_transform, bind, get_self, lift, strategy_transform,
      Mode_transform, transform_axis0, deref.
    cbn [fst snd _strategy _data _fitted_data kind axis Z.eqb].
    unfold bind. rewrite after_alloc_new.
    destruct (shape1 a) as [|n]; [reflexivity|].
    cbn [seq for_range]. unfold bind.
    now rewrite (fill_column_None _ _ a _ (after_alloc_new w a)).
Qed.

Lemma failed_fit_then_transform_witness :
  let a := mk_ndarray 2 [] in
  let w := world_with a in
  let i1 := mk_Imputer (mk_strategy Mode 0) (Some (fresh_loc w)) None in
  Imputer_fit 0%nat (new_imputer Mode 0, w)
    = (Raise ValueError, (i1, after_alloc w a))
  /\ Imputer_transform (i1, after_alloc w a)
     = (Raise TypeError, (i1, after_alloc w a)).
Proof.
  intros a w.
  apply (failed_fit_then_transform w 0%nat a); vm_compute; reflexivity.
Defined.

(** ** Mean and median leave no missing cell *)

Lemma impute_row_no_nan (f r : list cell) :
  forallb (fun v => negb (isnan v)) f = true -> nan_free (impute_row f r) = true.
Proof.
  revert f. induction r as [|x r IH]; intros f Hf; [reflexivity|].
  destruct f as [|v f]; [reflexivity|].
  simpl in Hf. apply andb_true_iff in Hf as [Hv Hf].
  unfold impute_row, nan_free in *. cbn [zip_with forallb].
  rewrite IH by exact Hf. rewrite andb_true_r.
  destruct x; try reflexivity. exact Hv.
Qed.

Lemma small_integer_column_inv (col : list cell) :
  small_integer_column col = true ->
  exists zs, integer_values col = Some zs /\ zs <> [] /\ sum_abs zs < 2 ^ 52.
Proof.
  unfold small_integer_column.
  destruct (integer_values col) as [[|z zs]|]; try discriminate.
  intros H. apply Z.ltb_lt in H. exists (z :: zs).
  split; [reflexivity|]. split; [discriminate | exact H].
Qed.

Lemma integer_values_elem (col : list cell) (zs : list Z) (x : cell) :
  integer_values col = Some zs -> x ∈ col -> isnan x = false ->
  exists z, x = F z.
Proof.
  revert zs. induction col as [|y col IH]; intros zs H Hin Hnan;
    [now apply elem_of_nil in Hin|].
  cbn [integer_values] in H. apply elem_of_cons in Hin as [-> | Hin].
  - rewrite Hnan in H.
    destruct (cell_integer y) as [z|] eqn:Hz; [|discriminate].
    exists z. now apply cell_integer_F.
  - destruct (isnan y); [now apply (IH zs)|].
    destruct (cell_integer y); [|discriminate].
    destruct (integer_values col) as [zs'|]; [|discriminate].
    now apply (IH zs').
Qed.

Lemma strategy_fit_integer_statistic (k : strategy_kind) (l : loc) (w : world)
    (a : ndarray) :
  k <> Mode -> heap w !! l = Some a -> small_integer_matrix a = true ->
  exists f,
    strategy_fit (mk_strategy k 0) l w = (Ok (Some f), w)
    /\ length f = shape1 a
    /\ forall j, (j < shape1 a)%nat ->
         exists zs, integer_values (column a j) = Some zs
                    /\ f !! j = Some (integer_statistic k zs)
                    /\ isnan (integer_statistic k zs) = false.
Proof.
  intros Hk Hw Hsmall.
  assert (Hcol : forall j, (j < shape1 a)%nat ->
            exists zs, integer_values (column a j) = Some zs
                       /\ zs <> [] /\ sum_abs zs < 2 ^ 52).
  { intros j Hj. apply small_integer_column_inv.
    unfold small_integer_matrix in Hsmall. rewrite forallb_forall in Hsmall.
    apply Hsmall, in_seq. lia. }
  assert (Hpow : 2 ^ 52 < 2 ^ 53) by reflexivity.
  unfold strategy_fit. destruct k; cbn [kind]; [| |contradiction].
  - exists (nanmean a).
    split; [apply Mean_fit_axis0; [reflexivity | exact Hw]|].
    unfold nanmean. split; [now rewrite length_map, length_seq|].
    intros j Hj. destruct (Hcol j Hj) as (zs & Hzs & Hne & Hb).
    exists zs. split; [exact Hzs|]. rewrite lookup_map_seq by exact Hj.
    rewrite (nanmean1d_integers _ zs Hzs) by lia.
    cbn [integer_statistic]. split; [now destruct zs | apply round64_not_nan].
  - exists (nanmedian a).
    split; [apply Median_fit_axis0; [reflexivity | exact Hw]|].
    unfold nanmedian. split; [now rewrite length_map, length_seq|].
    intros j Hj. destruct (Hcol j Hj) as (zs & Hzs & Hne & Hb).
    exists zs. split; [exact Hzs|]. rewrite lookup_map_seq by exact Hj.
    rewrite (nanmedian1d_integers _ zs Hzs).
    + cbn [integer_statistic]. split; [now destruct zs | reflexivity].
    + apply Forall_forall. intros z Hz.
      pose proof (sum_abs_bound zs z Hz). lia.
Qed.

(** The mean and the median strategy complete a matrix of small integers:
    with axis 0, for a well-shaped matrix in which the non-missing values of
    every column are integers, at least one per column, with absolute values
    summing to less than [2^52], [fit] then [transform] returns a matrix of
    the same shape without any missing cell; every cell that held a value
    keeps it, and every missing cell holds the arithmetic mean of the values
    of its column rounded to a float64 (respectively their median). *)
Theorem mean_median_fill_every_missing_cell
    (k : strategy_kind) (i0 : Imputer) (w : world) (data : loc) (a : ndarray) :
  k <> Mode -> _strategy i0 = mk_strategy k 0 -> heap w !! data = Some a ->
  well_shaped a = true -> small_integer_matrix a = true ->
  exists a',
    returned_array (fit_transform data (i0, w)) = Some a'
    /\ shape1 a' = shape1 a /\ shape0 a' = shape0 a
    /\ no_missing a' = true
    /\ (forall i j x, cell_at a i j = Some x -> isnan x = false ->
          cell_at a' i j = Some x)
    /\ (forall i j, cell_at a i j = Some NaN ->
          exists zs, integer_values (column a j) = Some zs
                     /\ cell_at a' i j = Some (integer_statistic k zs)).
Proof.
  intros Hk Hs Hw Hwf Hsmall.
  destruct (strategy_fit_integer_statistic k (fresh_loc w) (after_alloc w a) a
              Hk (after_alloc_new w a) Hsmall) as (f & Hfit & Hlen & Hstat).
  assert (Hf : forallb (fun v => negb (isnan v)) f = true).
  { apply forallb_forall. intros v Hv. apply list_elem_of_In in Hv.
    apply list_elem_of_lookup_1 in Hv as [j Hj].
    assert (Hlt : (j < shape1 a)%nat)
      by (rewrite <- Hlen; eapply lookup_lt_Some; exact Hj).
    destruct (Hstat j Hlt) as (zs & _ & Hfj & Hnn).
    rewrite Hj in Hfj. injection Hfj as ->. now rewrite Hnn. }
  assert (Hcol : forall i j x, cell_at a i j = Some x ->
            (j < shape1 a)%nat /\ x ∈ column a j).
  { intros i j x Hx. apply well_shaped_Forall in Hwf.
    rewrite Forall_forall in Hwf. unfold cell_at in Hx.
    destruct (rows a !! i) as [r|] eqn:Hr; [|discriminate]. cbn in Hx.
    split.
    - rewrite <- (Hwf r) by (eapply list_elem_of_lookup_2; exact Hr).
      eapply lookup_lt_Some. exact Hx.
    - unfold column. apply list_elem_of_fmap. exists r. split.
      + unfold getitem. now rewrite Hx.
      + eapply list_elem_of_lookup_2. exact Hr. }
  exists (imputed f a).
  unfold fit_transform, bind.
  rewrite (Imputer_fit_unfold i0 w data a Hw), Hs, Hfit.
  rewrite (Imputer_transform_ok
             (mk_Imputer (mk_strategy k 0) (Some (fresh_loc w)) (Some f))
             _ (fresh_loc w) f a eq_refl eq_refl eq_refl
             (after_alloc_new w a) Hwf Hlen).
  cbn [returned_array heap].
  split; [apply lookup_insert_eq|]. split; [reflexivity|].
  split; [unfold shape0, imputed; cbn [rows]; apply length_map|].
  split; [|split].
  - unfold no_missing, imputed. cbn [rows]. apply forallb_forall.
    intros r Hr. apply in_map_iff in Hr as (r0 & <- & _).
    now apply impute_row_no_nan.
  - intros i j x Hx Hnan. destruct (Hcol i j x Hx) as [Hj Hin].
    destruct (Hstat j Hj) as (zs & Hzs & Hfj & _).
    rewrite cell_at_imputed, Hx. cbn. rewrite Hfj. cbn. f_equal.
    destruct (integer_values_elem _ zs x Hzs Hin Hnan) as [z ->].
    reflexivity.
  - intros i j Hx. destruct (Hcol i j NaN Hx) as [Hj _].
    destruct (Hstat j Hj) as (zs & Hzs & Hfj & _).
    exists zs. split; [exact Hzs|].
    rewrite cell_at_imputed, Hx. cbn. now rewrite Hfj.
Qed.

Lemma mean_median_fill_every_missing_cell_witness :
  let a := mk_ndarray 2 [[F 1; NaN]; [NaN; F 4]; [F 3; F 8]] in
  let w := world_with a in
  exists a',
    returned_array (fit_transform 0%nat (new_imputer Median 0, w)) = Some a'
    /\ shape1 a' = shape1 a /\ shape0 a' = shape0 a
    /\ no_missing a' = true
    /\ (forall i j x, cell_at a i j = Some x -> isnan x = false ->
          cell_at a' i j = Some x)
    /\ (forall i j, cell_at a i j = Some NaN ->
          exists zs, integer_values (column a j) = Some zs
                     /\ cell_at a' i j = Some (integer_statistic Median zs)).
Proof.
  intros a w.
  apply (mean_median_fill_every_missing_cell Median (new_imputer Median 0)
           w 0%nat a).
  - discriminate.
  - reflexivity.
  - vm_compute; reflexivity.
  - reflexivity.
  - vm_compute; reflexivity.
Defined.

(** ** Mode: the most frequent row *)

Lemma cell_compare_eq (x y : cell) : cell_compare x y = Eq -> x = y.
Proof.
  destruct x, y; simpl; try discriminate; try reflexivity.
  intros H. f_equal. now apply Qceq_alt.
Qed.

Lemma cell_compare_refl (x : cell) : cell_compare x x = Eq.
Proof. destruct x; simpl; try reflexivity. now apply Qceq_alt. Qed.

Lemma cell_compare_trans (x y z : cell) :
  cell_compare x y = Lt -> cell_compare y z = Lt -> cell_compare x z = Lt.
Proof.
  destruct x, y, z; simpl; try discriminate; try reflexivity.
  intros H1 H2. apply Qclt_alt. apply Qclt_alt in H1, H2.
  eapply Qclt_trans; eassumption.
Qed.

Lemma row_compare_eq (r1 r2 : list cell) : row_compare r1 r2 = Eq -> r1 = r2.
Proof.
  revert r2. induction r1 as [|x r1 IH]; intros [|y r2]; simpl;
    try discriminate; try reflexivity.
  destruct (cell_compare x y) eqn:E; try discriminate.
  intros H. apply cell_compare_eq in E. apply IH in H. congruence.
Qed.

Lemma row_compare_refl (r : list cell) : row_compare r r = Eq.
Proof.
  induction r as [|x r IH]; [reflexivity|]. simpl.
  now rewrite cell_compare_refl.
Qed.

Lemma row_compare_antisym (r1 r2 : list cell) :
  row_compare r2 r1 = CompOpp (row_compare r1 r2).
Proof.
  revert r2. induction r1 as [|x r1 IH]; intros [|y r2]; simpl;
    try reflexivity.
  rewrite (cell_compare_antisym x y).
  destruct (cell_compare x y); simpl; [apply IH | reflexivity | reflexivity].
Qed.

Lemma row_compare_trans (r1 r2 r3 : list cell) :
  row_compare r1 r2 = Lt -> row_compare r2 r3 = Lt -> row_compare r1 r3 = Lt.
Proof.
  revert r2 r3. induction r1 as [|x r1 IH]; intros [|y r2] [|z r3]; simpl;
    try discriminate; try reflexivity.
  destruct (cell_compare x y) eqn:Exy; try discriminate;
    destruct (cell_compare y z) eqn:Eyz; try discriminate; intros H1 H2.
  - apply cell_compare_eq in Exy, Eyz. subst.
    rewrite cell_compare_refl. eapply IH; eassumption.
  - apply cell_compare_eq in Exy. subst. now rewrite Eyz.
  - apply cell_compare_eq in Eyz. subst. now rewrite Exy.
  - now rewrite (cell_compare_trans x y z Exy Eyz).
Qed.

Lemma row_le_cases (r1 r2 : list cell) : row_le r1 r2 <-> r1 = r2 \/ row_lt r1 r2.
Proof.
  unfold row_le, row_lt, row_leb. split.
  - destruct (row_compare r1 r2) eqn:E; try discriminate; intros _.
    + left. now apply row_compare_eq.
    + now right.
  - intros [-> | ->]; [now rewrite row_compare_refl | reflexivity].
Qed.

Lemma row_lt_irrefl (r : list cell) : ~ row_lt r r.
Proof. unfold row_lt. now rewrite row_compare_refl. Qed.

Lemma row_leb_total (r1 r2 : list cell) :
  row_leb r1 r2 = false -> row_leb r2 r1 = true.
Proof.
  unfold row_leb. rewrite (row_compare_antisym r1 r2).
  destruct (row_compare r1 r2); simpl; congruence.
Qed.

#[local] Instance row_le_trans : Transitive row_le.
Proof.
  intros r1 r2 r3 H12 H23.
  apply row_le_cases in H12 as [-> | H12]; [exact H23|].
  apply row_le_cases in H23 as [<- | H23]; apply row_le_cases; right;
    [exact H12 | eapply row_compare_trans; eassumption].
Qed.

Lemma row_le_lt_trans (r1 r2 r3 : list cell) :
  row_lt r1 r2 -> row_le r2 r3 -> row_lt r1 r3.
Proof.
  intros H12 H23. apply row_le_cases in H23 as [<- | H23]; [exact H12|].
  eapply row_compare_trans; eassumption.
Qed.

Lemma row_le_neq_lt (r1 r2 : list cell) : row_le r1 r2 -> r1 <> r2 -> row_lt r1 r2.
Proof. intros H Hne. apply row_le_cases in H as [?|?]; [contradiction | assumption]. Qed.

Lemma row_ne_false_iff (r1 r2 : list cell) :
  nan_free r1 = true -> nan_free r2 = true -> length r1 = length r2 ->
  row_ne r1 r2 = false <-> r1 = r2.
Proof.
  revert r2. induction r1 as [|x r1 IH]; intros [|y r2] H1 H2 Hlen;
    simpl in *; try discriminate; [tauto|].
  apply andb_true_iff in H1 as [Hx H1]. apply andb_true_iff in H2 as [Hy H2].
  rewrite orb_false_iff, negb_false_iff.
  rewrite (IH r2 H1 H2 ltac:(lia)).
  assert (Hxy : ieee_eqb x y = true <-> x = y).
  { destruct x, y; simpl in *; try discriminate;
      try (split; [reflexivity | reflexivity]);
      try (split; [discriminate | discriminate]);
      try (split; [discriminate | congruence]).
    rewrite Qc_eqb_spec. split; congruence. }
  rewrite Hxy. split.
  - intros [H3 H4]. now subst.
  - intros E. injection E as E1 E2. now subst.
Qed.

Lemma row_count_cons (r x : list cell) (rs : list (list cell)) :
  row_count r (x :: rs)
  = ((if decide (x = r) then 1 else 0) + row_count r rs)%nat.
Proof.
  unfold row_count. destruct (decide (x = r)) as [E|E].
  - now rewrite filter_cons_True by exact E.
  - now rewrite filter_cons_False by exact E.
Qed.

Lemma row_count_zero (r : list cell) (rs : list (list cell)) :
  r ∉ rs -> row_count r rs = 0%nat.
Proof.
  induction rs as [|x rs IH]; intros Hnin; [reflexivity|].
  rewrite row_count_cons. apply not_elem_of_cons in Hnin as [Hne Hnin].
  rewrite IH by exact Hnin. destruct (decide (x = r)); [congruence|reflexivity].
Qed.

Lemma row_count_perm (r : list cell) (rs rs' : list (list cell)) :
  Permutation rs rs' -> row_count r rs = row_count r rs'.
Proof. intros H. unfold row_count. now rewrite H. Qed.

Section Runs.
Variable n : nat.

Lemma unique_runs_spec (rest : list (list cell)) :
  forall (v : list cell) (cnt : nat),
    good_row n v -> Forall (good_row n) rest ->
    StronglySorted row_le (v :: rest) ->
    (forall r c, (r, c) ∈ unique_runs v v cnt rest ->
       r ∈ v :: rest
       /\ c = ((if decide (r = v) then cnt else 0) + row_count r rest)%nat)
    /\ (forall r, r ∈ v :: rest -> r ∈ map fst (unique_runs v v cnt rest))
    /\ StronglySorted row_lt (map fst (unique_runs v v cnt rest)).
Proof.
  induction rest as [|x rest IH]; intros v cnt Hv Hrest Hsorted.
  - cbn [unique_runs map fst]. repeat split.
    + apply list_elem_of_singleton in H. injection H as -> ->. left.
    + apply list_elem_of_singleton in H. injection H as -> ->.
      rewrite decide_True by reflexivity. unfold row_count. simpl. lia.
    + intros r Hr. apply list_elem_of_singleton in Hr. subst. left.
    + repeat constructor.
  - apply Forall_cons in Hrest as [Hx Hrest].
    apply StronglySorted_inv in Hsorted as [Hsx Hvall].
    apply Forall_cons in Hvall as [Hvx Hvrest].
    cbn [unique_runs].
    destruct (row_ne x v) eqn:Hne.
    + assert (Hxv : x <> v).
      { intros E. apply (row_ne_false_iff x v) in E;
          [congruence | apply Hx | apply Hv | destruct Hx, Hv; congruence]. }
      assert (Hlt : row_lt v x)
        by (apply row_le_neq_lt; [exact Hvx | congruence]).
      assert (Hbelow : forall r, r ∈ x :: rest -> row_lt v r).
      { intros r Hr. apply StronglySorted_inv in Hsx as [_ Hxall].
        apply elem_of_cons in Hr as [-> | Hr]; [exact Hlt|].
        rewrite Forall_forall in Hxall. eapply row_le_lt_trans; eauto. }
      destruct (IH x 1%nat Hx Hrest Hsx) as (IH1 & IH2 & IH3).
      split; [|split].
      * intros r c Hrc. apply elem_of_cons in Hrc as [E|Hrc].
        -- injection E as -> ->. split; [left|].
           rewrite decide_True by reflexivity.
           rewrite row_count_zero; [lia|].
           intros Hin. apply Hbelow in Hin. now apply row_lt_irrefl in Hin.
        -- destruct (IH1 r c Hrc) as [Hin ->]. split; [now right|].
           assert (Hrv : r <> v).
           { intros ->. apply Hbelow in Hin. now apply row_lt_irrefl in Hin. }
           rewrite (decide_False (P := r = v)) by exact Hrv.
           rewrite row_count_cons.
           destruct (decide (r = x)) as [-> | Hrx].
           ++ rewrite decide_True by reflexivity. lia.
           ++ rewrite decide_False by congruence. lia.
      * intros r Hr. cbn [map fst]. apply elem_of_cons in Hr as [-> | Hr];
          [left | right; now apply IH2].
      * cbn [map fst]. constructor; [exact IH3|].
        apply Forall_forall. intros r Hr.
        apply list_elem_of_fmap in Hr as ([r0 c0] & -> & Hrc).
        apply Hbelow. now apply IH1 in Hrc.
    + assert (Hxv : x = v).
      { apply (row_ne_false_iff x v);
          [apply Hx | apply Hv | destruct Hx, Hv; congruence | exact Hne]. }
      subst x.
      assert (Hsorted' : StronglySorted row_le (v :: rest)).
      { constructor; [|exact Hvrest]. now apply StronglySorted_inv in Hsx. }
      destruct (IH v (S cnt) Hv Hrest Hsorted') as (IH1 & IH2 & IH3).
      split; [|split].
      * intros r c Hrc. destruct (IH1 r c Hrc) as [Hin ->]. split.
        -- apply elem_of_cons in Hin as [-> | Hin]; [left | right; now right].
        -- rewrite row_count_cons.
           destruct (decide (r = v)) as [-> | Hrv].
           ++ rewrite decide_True by reflexivity. lia.
           ++ rewrite decide_False by congruence. lia.
      * intros r Hr. apply IH2.
        apply elem_of_cons in Hr as [-> | Hr]; [left | exact Hr].
      * exact IH3.
Qed.
End Runs.

Lemma argmax_from_spec (c : list nat) :
  forall (pre : list nat) (best_i best : nat),
    pre !! best_i = Some best ->
    (forall j y, pre !! j = Some y -> (y <= best)%nat) ->
    (forall j y, (j < best_i)%nat -> pre !! j = Some y -> (y < best)%nat) ->
    exists m,
      (pre ++ c) !! argmax_from best_i best (length pre) c = Some m
      /\ (forall j y, (pre ++ c) !! j = Some y -> (y <= m)%nat)
      /\ (forall j y, (j < argmax_from best_i best (length pre) c)%nat ->
            (pre ++ c) !! j = Some y -> (y < m)%nat).
Proof.
  induction c as [|x c IH]; intros pre best_i best Hbest Hmax Hstrict.
  - cbn [argmax_from]. rewrite app_nil_r. exists best. auto.
  - cbn [argmax_from].
    replace (pre ++ x :: c) with ((pre ++ [x]) ++ c)
      by (now rewrite <- app_assoc).
    replace (S (length pre)) with (length (pre ++ [x]))
      by (rewrite length_app; simpl; lia).
    destruct (Nat.ltb_spec best x) as [Hlt|Hge].
    + apply IH.
      * rewrite lookup_app_r by lia. now rewrite Nat.sub_diag.
      * intros j y Hj. apply lookup_app_Some in Hj as [Hj|[_ Hj]].
        -- apply Hmax in Hj. lia.
        -- destruct (j - length pre)%nat; [|discriminate].
           injection Hj as ->. lia.
      * intros j y Hlj Hj. rewrite lookup_app_l in Hj by exact Hlj.
        apply Hmax in Hj. lia.
    + assert (Hbi : (best_i < length pre)%nat)
        by (eapply lookup_lt_Some; exact Hbest).
      apply IH.
      * now rewrite lookup_app_l by exact Hbi.
      * intros j y Hj. apply lookup_app_Some in Hj as [Hj|[_ Hj]].
        -- now apply Hmax in Hj.
        -- destruct (j - length pre)%nat; [|discriminate].
           injection Hj as ->. lia.
      * intros j y Hlj Hj. rewrite lookup_app_l in Hj by lia.
        eapply Hstrict; eassumption.
Qed.

Lemma argmax_spec (c : list nat) (i : nat) :
  argmax c = Some i ->
  exists m, c !! i = Some m
            /\ (forall j y, c !! j = Some y -> (y <= m)%nat)
            /\ (forall j y, (j < i)%nat -> c !! j = Some y -> (y < m)%nat).
Proof.
  destruct c as [|x c]; [discriminate|]. cbn [argmax]. intros [= <-].
  apply (argmax_from_spec c [x] 0 x).
  - reflexivity.
  - intros [|j] y Hj; [injection Hj as ->; lia | discriminate].
  - intros j y Hj. lia.
Qed.

Lemma StronglySorted_lookup_lt {A} (R : A -> A -> Prop) (l : list A) :
  StronglySorted R l ->
  forall i j x y, (i < j)%nat -> l !! i = Some x -> l !! j = Some y -> R x y.
Proof.
  induction 1 as [|a l Hs IH Hall]; intros i j x y Hij Hi Hj; [discriminate|].
  destruct j as [|j]; [lia|]. cbn in Hj.
  destruct i as [|i].
  - injection Hi as ->. rewrite Forall_forall in Hall. apply Hall.
    eapply list_elem_of_lookup_2. exact Hj.
  - cbn in Hi. eapply IH; [|eassumption|eassumption]. lia.
Qed.

(** On a well-shaped matrix with at least one row and no missing cell,
    [Mode.fit] with axis 0 returns a row of the matrix that occurs at least
    as often as every other row, and among the rows that occur as often it
    is the first in lexicographic order; nothing is written or printed. *)
Theorem Mode_fit_most_frequent_row (l : loc) (w : world) (a : ndarray) :
  heap w !! l = Some a -> well_shaped a = true -> no_missing a = true ->
  rows a <> [] ->
  exists r,
    Mode_fit (mk_strategy Mode 0) l w = (Ok (Some r), w)
    /\ r ∈ rows a
    /\ forall r', r' ∈ rows a ->
         (row_count r' (rows a) <= row_count r (rows a))%nat
         /\ (row_count r' (rows a) = row_count r (rows a) ->
             row_leb r r' = true).
Proof.
  intros Hw Hwf Hnan Hne.
  assert (Hgood : Forall (good_row (shape1 a)) (rows a)).
  { apply well_shaped_Forall in Hwf. rewrite Forall_forall in *.
    unfold no_missing in Hnan. rewrite forallb_forall in Hnan.
    intros r Hr. split; [now apply Hwf | apply Hnan; now apply list_elem_of_In]. }
  unfold Mode_fit, bind, deref.
  change (axis (mk_strategy Mode 0) =? 0) with true. cbv beta iota.
  rewrite Hw. cbv beta iota. unfold np_unique.
  pose proof (np_sort_perm row_leb (rows a)) as Hperm.
  pose proof (np_sort_sorted row_leb row_leb_total (rows a)) as Hsorted.
  apply Sorted_StronglySorted in Hsorted; [|apply row_le_trans].
  rewrite <- Hperm in Hgood.
  destruct (np_sort row_leb (rows a)) as [|v rest] eqn:Hs.
  { apply Permutation_nil in Hperm. contradiction. }
  apply Forall_cons in Hgood as [Hv Hrest].
  destruct (unique_runs_spec (shape1 a) rest v 1%nat Hv Hrest Hsorted)
    as (Hruns1 & Hruns2 & Hruns3).
  set (runs := unique_runs v v 1 rest) in *.
  assert (Hcount : forall r c, (r, c) ∈ runs -> c = row_count r (rows a)).
  { intros r c Hrc. destruct (Hruns1 r c Hrc) as [_ ->].
    rewrite <- (row_count_perm r _ _ Hperm), row_count_cons.
    destruct (decide (r = v)) as [-> | Hrv].
    - now rewrite decide_True by reflexivity.
    - now rewrite decide_False by congruence. }
  assert (Hvin : v ∈ map fst runs) by (apply Hruns2; left).
  destruct (argmax (map snd runs)) as [i|] eqn:Hi.
  2:{ exfalso. destruct runs as [|p q]; [|discriminate Hi].
      now apply elem_of_nil in Hvin. }
  destruct (argmax_spec _ _ Hi) as (m & Hm & Hmax & Hstrict).
  rewrite list_lookup_fmap in Hm.
  destruct (runs !! i) as [[r c]|] eqn:Hri; [|discriminate].
  cbn in Hm. injection Hm as ->.
  exists r. rewrite list_lookup_fmap, Hri. cbn.
  assert (Hrm : m = row_count r (rows a))
    by (apply Hcount; eapply list_elem_of_lookup_2; exact Hri).
  split; [reflexivity|]. split.
  { rewrite <- Hperm. apply (Hruns1 r m). eapply list_elem_of_lookup_2. exact Hri. }
  intros r' Hr'.
  assert (Hin : r' ∈ map fst runs) by (apply Hruns2; now rewrite Hperm).
  apply list_elem_of_fmap in Hin as ([r0 c'] & Hr0 & Hrc).
  cbn in Hr0. subst r0.
  pose proof (Hcount r' c' Hrc) as Hc'.
  apply list_elem_of_lookup_1 in Hrc as [j Hj].
  assert (Hjs : map snd runs !! j = Some c')
    by (now rewrite list_lookup_fmap, Hj).
  rewrite <- Hc', <- Hrm. split; [now apply (Hmax j)|].
  intros Heq.
  destruct (Nat.lt_trichotomy j i) as [Hlt | [-> | Hgt]].
  - pose proof (Hstrict j c' Hlt Hjs). lia.
  - rewrite Hri in Hj. injection Hj as -> _.
    unfold row_leb. now rewrite row_compare_refl.
  - assert (Hlt : row_lt r r').
    { eapply (StronglySorted_lookup_lt row_lt _ Hruns3 i j); [exact Hgt | |];
        rewrite list_lookup_fmap; [now rewrite Hri | now rewrite Hj]. }
    unfold row_lt in Hlt. unfold row_leb. now rewrite Hlt.
Qed.

Lemma Mode_fit_most_frequent_row_witness :
  let a := mk_ndarray 2 [[F 2; F 8]; [F 1; F 9]; [F 2; F 8]; [F 1; F 9]; [F 0; F 5]] in
  let w := world_with a in
  exists r,
    Mode_fit (mk_strategy Mode 0) 0%nat w = (Ok (Some r), w)
    /\ r ∈ rows a
    /\ forall r', r' ∈ rows a ->
         (row_count r' (rows a) <= row_count r (rows a))%nat
         /\ (row_count r' (rows a) = row_count r (rows a) ->
             row_leb r r' = true).
Proof.
  intros a w.
  apply (Mode_fit_most_frequent_row 0%nat w a).
  - vm_compute; reflexivity.
  - reflexivity.
  - vm_compute; reflexivity.
  - discriminate.
Defined.
